(** * Verification of the record store of [app.js]

    [app.js] keeps uploaded files in an IndexedDB object store [files]
    (key path [id], [autoIncrement: true]) and exposes [addFileRecord],
    [getAllFiles] and [deleteFile], each of which opens its own transaction
    on the connection cached by [openDB].

    The object store itself is the browser's; it is modelled here after the
    IndexedDB standard: a key generator whose current number starts at 1,
    records kept in ascending key order, a transaction that either commits
    or aborts (an abort reverts the records and the key generator), and a
    request whose success event may fire before the transaction commits. *)

From Stdlib Require Import NArith ZArith Lia List String Ascii Bool Sorted Permutation.
From Stdlib Require Import Strings.Byte.
Import ListNotations.
Open Scope Z_scope.

(** ** Values of the program *)

(** A [File] as the page receives it (from the file input or a drop):
    its name, its MIME type (lower case, possibly empty) and its bytes. *)
Record File := mkFile {
  file_name : string;
  file_type : string;
  file_bytes : list byte
}.

(** [Blob.size] is the number of bytes of the blob. *)
Definition file_size (f : File) : Z := Z.of_nat (List.length (file_bytes f)).

(** The object stored by [addFileRecord], with the key [id] injected by the
    store through its key path. *)
Record FileRecord := mkFileRecord {
  id : Z;
  name : string;
  type : string;
  size : Z;
  uploadedAt : string;
  dataURL : string
}.

(** DOM exceptions a request or a transaction can end with. *)
Inductive DOMError :=
| ConstraintError
| DataError
| QuotaExceededError
| UnknownError
| NotReadableError.

(** Settlement of a promise. *)
Inductive result (A : Type) :=
| Ok (a : A)
| Err (e : DOMError).
Arguments Ok {A} a.
Arguments Err {A} e.

(** What the storage engine does with a readwrite transaction, beyond what
    the standard fixes: it completes, its request fails (the request's
    [onerror] fires), or the request succeeds and the transaction then
    aborts while committing (quota, I/O), which reverts its changes. *)
Inductive tx_outcome :=
| Completes
| RequestFails (e : DOMError)
| CommitFails (e : DOMError).

(** ** The object store [files] *)

Record ObjStore := mkObjStore {
  current_number : Z;            (* the key generator *)
  records : list FileRecord      (* ascending by [id] *)
}.

(** The store as [onupgradeneeded] creates it.  The non-unique index on
    [type] is never queried and is left out. *)
Definition empty_store : ObjStore := mkObjStore 1 [].

(** Largest key a key generator hands out (2^53). *)
Definition max_generated_key : Z := 9007199254740992.

Fixpoint find_key (k : Z) (rs : list FileRecord) : option FileRecord :=
  match rs with
  | [] => None
  | r :: rs' => if Z.eqb (id r) k then Some r else find_key k rs'
  end.

(** Insertion of a record into the key-ordered record list. *)
Fixpoint insert_by_key (r : FileRecord) (rs : list FileRecord) : list FileRecord :=
  match rs with
  | [] => [r]
  | r' :: rs' => if Z.ltb (id r) (id r') then r :: rs else r' :: insert_by_key r rs'
  end.

(** [store.add(value)] with a generated key, then the transaction's
    end.  Generating a key fails once the current number exceeds 2^53;
    storing with no-overwrite fails if the key is taken.  The result is
    what the request's success or error event reports (this is what the
    promise of [addFileRecord] settles with), and the store after the
    transaction has committed or aborted. *)
Definition store_add (o : tx_outcome) (rec : Z -> FileRecord) (st : ObjStore)
  : result Z * ObjStore :=
  let k := current_number st in
  if Z.ltb max_generated_key k then (Err ConstraintError, st)
  else match find_key k (records st) with
  | Some _ => (Err ConstraintError, st)
  | None =>
      match o with
      | Completes =>
          (Ok k, mkObjStore (k + 1) (insert_by_key (rec k) (records st)))
      | RequestFails e => (Err e, st)
      | CommitFails _ => (Ok k, st)
      end
  end.

(** [store.getAll()]: every stored value, in key order. *)
Definition store_getAll (st : ObjStore) : list FileRecord := records st.

(** ** Binary64 doubles

    A finite double is [DFin m e], the value [m * 2^e]; the sign of a zero
    is not kept.  [to_double n d] is the double nearest to the rational
    [n / d] (d > 0), ties to even, and an infinity when the rounded value
    reaches 2^1024: IEEE 754 round-to-nearest, written with integers. *)
Inductive dbl :=
| DFin (m e : Z)
| DInf (negative : bool)
| DNaN.

(** floor(log2(n / d)) for n, d > 0. *)
Definition flog2 (n d : Z) : Z :=
  let K := Z.log2 d + 1 in
  Z.log2 (n * 2 ^ K / d) - K.

(** [a / b] rounded to an integer, ties to even (b > 0). *)
Definition round_half_even (a b : Z) : Z :=
  let q := a / b in
  match Z.compare (2 * (a mod b)) b with
  | Lt => q
  | Gt => q + 1
  | Eq => if Z.even q then q else q + 1
  end.

(** Significand and exponent of the double nearest to [n / d] (n, d > 0):
    53 significant bits, fewer below the normal range (exponent -1074). *)
Definition round_pos (n d : Z) : Z * Z :=
  let e := Z.max (flog2 n d - 52) (-1074) in
  (round_half_even (n * 2 ^ Z.max 0 (- e)) (d * 2 ^ Z.max 0 e), e).

Definition to_double (n d : Z) : dbl :=
  if Z.eqb n 0 then DFin 0 0
  else let '(m, e) := round_pos (Z.abs n) d in
       if andb (Z.leb 0 e) (Z.leb (2 ^ 1024) (m * 2 ^ e)) then DInf (Z.ltb n 0)
       else DFin (if Z.ltb n 0 then - m else m) e.

(** The double of an integer. *)
Definition dbl_of_Z (z : Z) : dbl := to_double z 1.

(** ** JavaScript numbers and [Number(...)]

    A JavaScript number as the program compares it with a key: an integer
    value (the keys the generator hands out are integers), another finite
    value, an infinity, or NaN. *)
Inductive number :=
| NInt (z : Z)
| NFrac
| NInf (negative : bool)
| NNaN.

Definition number_of_dbl (x : dbl) : number :=
  match x with
  | DFin m e =>
      if Z.leb 0 e then NInt (m * 2 ^ e)
      else if Z.eqb (m mod 2 ^ (- e)) 0 then NInt (m / 2 ^ (- e)) else NFrac
  | DInf neg => NInf neg
  | DNaN => NNaN
  end.

(** JavaScript values [deleteFile] can be called with. *)
Inductive jsval :=
| JUndefined
| JNull
| JBool (b : bool)
| JNum (n : number)
| JStr (s : string).

(** StrWhiteSpaceChar among the code units 0..255 a [string] holds:
    tab, line feed, vertical tab, form feed, carriage return, space and
    no-break space (U+00A0). *)
Definition is_ws (c : ascii) : bool :=
  match nat_of_ascii c with
  | 9 | 10 | 11 | 12 | 13 | 32 | 160 => true
  | _ => false
  end%nat.

Fixpoint drop_ws (cs : list ascii) : list ascii :=
  match cs with
  | c :: cs' => if is_ws c then drop_ws cs' else cs
  | [] => []
  end.

Definition trim (cs : list ascii) : list ascii := rev (drop_ws (rev (drop_ws cs))).

(** Value of a digit in base [base] (2, 8, 10 or 16). *)
Definition digit_value (base : N) (c : ascii) : option N :=
  let n := N.of_nat (nat_of_ascii c) in
  let v :=
    if andb (N.leb 48 n) (N.leb n 57) then Some (n - 48)%N
    else if andb (N.leb 97 n) (N.leb n 102) then Some (n - 87)%N
    else if andb (N.leb 65 n) (N.leb n 70) then Some (n - 55)%N
    else None in
  match v with
  | Some d => if N.ltb d base then Some d else None
  | None => None
  end.

(** Value of a digit sequence read most significant first, on top of [acc]. *)
Fixpoint digits_value (base acc : N) (cs : list ascii) : option N :=
  match cs with
  | [] => Some acc
  | c :: cs' =>
      match digit_value base c with
      | Some d => digits_value base (acc * base + d)%N cs'
      | None => None
      end
  end.

(** The longest prefix of decimal digits, and the rest. *)
Fixpoint span_digits (cs : list ascii) : list ascii * list ascii :=
  match cs with
  | c :: cs' =>
      match digit_value 10 c with
      | Some _ => let (ds, rest) := span_digits cs' in (c :: ds, rest)
      | None => ([], cs)
      end
  | [] => ([], [])
  end.

(** ExponentPart of a StrUnsignedDecimalLiteral (possibly absent). *)
Definition parse_exponent (cs : list ascii) : option Z :=
  match cs with
  | [] => Some 0
  | e :: cs' =>
      if orb (Ascii.eqb e "e"%char) (Ascii.eqb e "E"%char) then
        let '(neg, ds) :=
          match cs' with
          | s :: ds => if Ascii.eqb s "-"%char then (true, ds)
                       else if Ascii.eqb s "+"%char then (false, ds)
                       else (false, cs')
          | [] => (false, [])
          end in
        match ds with
        | [] => None
        | _ => match digits_value 10 0 ds with
               | Some v => Some (if neg then - Z.of_N v else Z.of_N v)
               | None => None
               end
        end
      else None
  end.

(** StrUnsignedDecimalLiteral other than [Infinity]: its value as a
    mantissa and a power of ten. *)
Definition parse_unsigned_decimal (cs : list ascii) : option (N * Z) :=
  let (ip, rest) := span_digits cs in
  let '(fp, rest') :=
    match rest with
    | c :: r => if Ascii.eqb c "."%char then span_digits r else ([], rest)
    | [] => ([], [])
    end in
  match ip, fp with
  | [], [] => None
  | _, _ =>
      match parse_exponent rest', digits_value 10 0 (ip ++ fp) with
      | Some e, Some m => Some (m, e - Z.of_nat (List.length fp))
      | _, _ => None
      end
  end.

(** The double nearest to [m * 10^e], negated if [neg] (RoundMVResult
    with the exact value, as V8 computes it). *)
Definition number_of_decimal (neg : bool) (m : N) (e : Z) : number :=
  let sgn (z : Z) := if neg then - z else z in
  number_of_dbl
    (if Z.leb 0 e then to_double (sgn (Z.of_N m * 10 ^ e)) 1
     else to_double (sgn (Z.of_N m)) (10 ^ (- e))).

Definition is_char (c : ascii) (n : nat) : bool := Nat.eqb (nat_of_ascii c) n.

(** StringToNumber: the StringNumericLiteral grammar; anything else is NaN. *)
Definition string_to_number (s : string) : number :=
  match trim (list_ascii_of_string s) with
  | [] => NInt 0
  | cs =>
      let radix :=
        match cs with
        | z :: x :: ds =>
            if is_char z 48 then
              if orb (is_char x 120) (is_char x 88) then Some (16%N, ds)
              else if orb (is_char x 111) (is_char x 79) then Some (8%N, ds)
              else if orb (is_char x 98) (is_char x 66) then Some (2%N, ds)
              else None
            else None
        | _ => None
        end in
      match radix with
      | Some (base, ds) =>
          match ds with
          | [] => NNaN
          | _ => match digits_value base 0 ds with
                 | Some v => number_of_dbl (dbl_of_Z (Z.of_N v))
                 | None => NNaN
                 end
          end
      | None =>
          let '(neg, body) :=
            match cs with
            | s :: b => if Ascii.eqb s "-"%char then (true, b)
                        else if Ascii.eqb s "+"%char then (false, b)
                        else (false, cs)
            | [] => (false, [])
            end in
          if String.eqb (string_of_list_ascii body) "Infinity" then NInf neg
          else match parse_unsigned_decimal body with
               | Some (m, e) => number_of_decimal neg m e
               | None => NNaN
               end
      end
  end.

(** [Number(v)] (ToNumber). *)
Definition Number (v : jsval) : number :=
  match v with
  | JUndefined => NNaN
  | JNull => NInt 0
  | JBool b => NInt (if b then 1 else 0)
  | JNum n => n
  | JStr s => string_to_number s
  end.

(** Does key [n] equal the (integer) key [k] of a stored record? *)
Definition key_matches (n : number) (k : Z) : bool :=
  match n with
  | NInt z => Z.eqb z k
  | _ => false
  end.

(** [store.delete(n)] with a number [n]: NaN is not a valid key and
    makes the call throw a [DataError] (inside the promise executor of
    [deleteFile], so the promise rejects and nothing is deleted); any other
    number is a key, and deleting a key with no record is not an error. *)
Definition store_delete (o : tx_outcome) (n : number) (st : ObjStore)
  : result unit * ObjStore :=
  match n with
  | NNaN => (Err DataError, st)
  | _ =>
      match o with
      | Completes =>
          (Ok tt, mkObjStore (current_number st)
                    (filter (fun r => negb (key_matches n (id r))) (records st)))
      | RequestFails e => (Err e, st)
      | CommitFails _ => (Ok tt, st)
      end
  end.

(** ** The operations of [app.js]

    Each of them first awaits [openDB()], which resolves to the cached
    connection once one is open (see module [OpenDB] below); all
    connections reach the same object store, so the operations are given
    the store directly. *)

(** [addFileRecord(file, dataURL)]; [now] is [new Date().toISOString()]
    at the time of the call, [o] what the engine does with the
    transaction. *)
Definition addFileRecord (o : tx_outcome) (now : string) (file : File)
    (dataURL : string) (st : ObjStore) : result Z * ObjStore :=
  let rec k := mkFileRecord k (file_name file) (file_type file) (file_size file)
                 now dataURL in
  store_add o rec st.

(** [getAllFiles()] when its read succeeds. *)
Definition getAllFiles (st : ObjStore) : list FileRecord := store_getAll st.

(** [deleteFile(id)]: [store.delete(Number(id))]. *)
Definition deleteFile (o : tx_outcome) (id : jsval) (st : ObjStore)
  : result unit * ObjStore :=
  store_delete o (Number id) st.

(** ** Histories of store operations *)

Inductive op :=
| OpAdd (o : tx_outcome) (now : string) (file : File) (dataURL : string)
| OpDelete (o : tx_outcome) (v : jsval)
| OpGetAll.

Definition run_op (x : op) (st : ObjStore) : ObjStore :=
  match x with
  | OpAdd o now f d => snd (addFileRecord o now f d st)
  | OpDelete o v => snd (deleteFile o v st)
  | OpGetAll => st
  end.

Definition run_ops (xs : list op) (st : ObjStore) : ObjStore :=
  fold_left (fun st x => run_op x st) xs st.

Definition is_add (x : op) : bool :=
  match x with OpAdd _ _ _ _ => true | _ => false end.

(** Could [x] remove the record with key [k]? *)
Definition op_deletes (k : Z) (x : op) : bool :=
  match x with
  | OpDelete _ v => key_matches (Number v) k
  | _ => false
  end.

(** Sequential inserts, each awaited before the next is issued; the first
    rejection ends the sequence. *)
Fixpoint insert_seq (xs : list (tx_outcome * string * File * string))
    (st : ObjStore) : result (list Z) * ObjStore :=
  match xs with
  | [] => (Ok [], st)
  | (o, now, f, d) :: xs' =>
      match addFileRecord o now f d st with
      | (Ok k, st1) =>
          match insert_seq xs' st1 with
          | (Ok ks, st2) => (Ok (k :: ks), st2)
          | (Err e, st2) => (Err e, st2)
          end
      | (Err e, st1) => (Err e, st1)
      end
  end.

(** Stores the application can reach: every stored key is below the key
    generator's current number, and the records are in strictly ascending
    key order. *)
Definition wf_store (st : ObjStore) : Prop :=
  (forall r, In r (records st) -> id r < current_number st) /\
  StronglySorted (fun a b => id a < id b) (records st).

(** ** Decimal form of an integer ([String(k)]) *)

Definition digit_char (d : N) : ascii := ascii_of_N (48 + d).

Fixpoint decimal_digits_aux (fuel : nat) (n : N) (acc : list ascii) : list ascii :=
  match fuel with
  | O => acc
  | S f =>
      let acc' := digit_char (n mod 10) :: acc in
      if N.ltb n 10 then acc' else decimal_digits_aux f (n / 10) acc'
  end.

Definition decimal_digits (n : N) : list ascii :=
  decimal_digits_aux (S (N.to_nat (N.size n))) n [].

Definition decimal_string (k : Z) : string :=
  string_of_list_ascii
    (match k with
     | Zneg p => "-"%char :: decimal_digits (Npos p)
     | _ => decimal_digits (Z.to_N k)
     end).

(** ** [fileToDataURL] and the data URL it produces

    [fileToDataURL(file)] resolves with [FileReader.readAsDataURL]'s
    result: per the File API, ["data:" type ";base64," base64(bytes)],
    with no media type when [file.type] is empty (some engines write
    [application/octet-stream] there instead). *)

Definition b64_alphabet : list ascii :=
  list_ascii_of_string
    "ABCDEFGHIJKLMNOPQRSTUVWXYZabcdefghijklmnopqrstuvwxyz0123456789+/".

Definition b64_char (n : N) : ascii :=
  match nth_error b64_alphabet (N.to_nat n) with
  | Some c => c
  | None => "A"%char
  end.

(** RFC 4648 base64 with padding: each 3 bytes give 4 sextets; a final
    group of 1 or 2 bytes gives 2 or 3 sextets (zero bits filled in) and
    the text is padded with [=] to a multiple of 4. *)
Fixpoint sextets_of_bytes (bs : list byte) : list N :=
  match bs with
  | b1 :: b2 :: b3 :: rest =>
      let n1 := Byte.to_N b1 in let n2 := Byte.to_N b2 in let n3 := Byte.to_N b3 in
      (n1 / 4)%N :: ((n1 mod 4) * 16 + n2 / 16)%N :: ((n2 mod 16) * 4 + n3 / 64)%N
        :: (n3 mod 64)%N :: sextets_of_bytes rest
  | [b1; b2] =>
      let n1 := Byte.to_N b1 in let n2 := Byte.to_N b2 in
      [(n1 / 4)%N; ((n1 mod 4) * 16 + n2 / 16)%N; ((n2 mod 16) * 4)%N]
  | [b1] =>
      let n1 := Byte.to_N b1 in [(n1 / 4)%N; ((n1 mod 4) * 16)%N]
  | [] => []
  end.

Definition b64_padding (bs : list byte) : list ascii :=
  match (List.length bs mod 3)%nat with
  | 1%nat => ["="%char; "="%char]
  | 2%nat => ["="%char]
  | _ => []
  end.

Definition base64_encode (bs : list byte) : list ascii :=
  map b64_char (sextets_of_bytes bs) ++ b64_padding bs.

(** [FileReader.readAsDataURL]: [data:], the file's type, [;base64,] and
    the base64 of its bytes.  For a file with an empty type the File API
    leaves the media type open; browsers and jsdom write
    [application/octet-stream]. *)
Definition dataURL_type (f : File) : string :=
  match file_type f with
  | EmptyString => "application/octet-stream"
  | ty => ty
  end.

Definition readAsDataURL (f : File) : string :=
  ("data:" ++ dataURL_type f ++ ";base64," ++ string_of_list_ascii (base64_encode (file_bytes f)))%string.

Inductive read_outcome :=
| ReadSucceeds
| ReadFails (e : DOMError).

(** [fileToDataURL(file)]: the reader's [onload] resolves with the data
    URL, its [onerror] rejects. *)
Definition fileToDataURL (r : read_outcome) (f : File) : result string :=
  match r with
  | ReadSucceeds => Ok (readAsDataURL f)
  | ReadFails e => Err e
  end.

(** ** Decoding a data URL (the consumer of [dataURL])

    The [data:] URL processor of the Fetch standard, as a page uses the
    stored [dataURL] as an image source or a download link.  Its MIME type
    parsing is reduced to [type/subtype] (lower-cased) followed by
    parameters kept as they are; anything else yields the default type. *)

Definition b64_index (c : ascii) : option N :=
  let fix go (cs : list ascii) (i : N) :=
    match cs with
    | [] => None
    | c' :: cs' => if Ascii.eqb c c' then Some i else go cs' (i + 1)%N
    end in
  go b64_alphabet 0%N.

Fixpoint b64_values (cs : list ascii) : option (list N) :=
  match cs with
  | [] => Some []
  | c :: cs' =>
      match b64_index c, b64_values cs' with
      | Some v, Some vs => Some (v :: vs)
      | _, _ => None
      end
  end.

Definition byte_of (n : N) : option byte := Byte.of_N n.

Fixpoint bytes_of_sextets (ss : list N) : option (list byte) :=
  match ss with
  | s1 :: s2 :: s3 :: s4 :: rest =>
      match byte_of (s1 * 4 + s2 / 16), byte_of ((s2 mod 16) * 16 + s3 / 4),
            byte_of ((s3 mod 4) * 64 + s4), bytes_of_sextets rest with
      | Some b1, Some b2, Some b3, Some bs => Some (b1 :: b2 :: b3 :: bs)
      | _, _, _, _ => None
      end
  | [s1; s2; s3] =>
      match byte_of (s1 * 4 + s2 / 16), byte_of ((s2 mod 16) * 16 + s3 / 4) with
      | Some b1, Some b2 => Some [b1; b2]
      | _, _ => None
      end
  | [s1; s2] =>
      match byte_of (s1 * 4 + s2 / 16) with
      | Some b1 => Some [b1]
      | None => None
      end
  | [_] => None
  | [] => Some []
  end%N.

(** ASCII whitespace (Infra standard): tab, line feed, form feed,
    carriage return and space. *)
Definition is_ascii_ws (c : ascii) : bool :=
  match nat_of_ascii c with
  | 9 | 10 | 12 | 13 | 32 => true
  | _ => false
  end%nat.

Fixpoint drop_ascii_ws (cs : list ascii) : list ascii :=
  match cs with
  | c :: cs' => if is_ascii_ws c then drop_ascii_ws cs' else cs
  | [] => []
  end.

Definition strip_ascii_ws (cs : list ascii) : list ascii :=
  rev (drop_ascii_ws (rev (drop_ascii_ws cs))).

(** Forgiving-base64 decode (Infra standard): after removing ASCII
    whitespace, a length that is a multiple of 4 loses one or two final
    [=]; a remaining length of 1 modulo 4, or a character outside the
    alphabet, is a failure. *)
Definition strip_padding (cs : list ascii) : list ascii :=
  if Nat.eqb (List.length cs mod 4) 0 then
    match rev cs with
    | p1 :: p2 :: r =>
        if Ascii.eqb p1 "="%char then
          if Ascii.eqb p2 "="%char then rev r else rev (p2 :: r)
        else cs
    | [p1] => if Ascii.eqb p1 "="%char then [] else cs
    | [] => cs
    end
  else cs.

Definition forgiving_base64_decode (cs : list ascii) : option (list byte) :=
  let cs := strip_padding (filter (fun c => negb (is_ascii_ws c)) cs) in
  if Nat.eqb (List.length cs mod 4) 1 then None
  else match b64_values cs with
       | Some ss => bytes_of_sextets ss
       | None => None
       end.

Fixpoint split_at_comma (cs : list ascii) : option (list ascii * list ascii) :=
  match cs with
  | [] => None
  | c :: cs' =>
      if Ascii.eqb c ","%char then Some ([], cs')
      else match split_at_comma cs' with
           | Some (m, b) => Some (c :: m, b)
           | None => None
           end
  end.

(** Percent-decoding of the body. *)
Fixpoint percent_decode (cs : list ascii) : list ascii :=
  match cs with
  | c :: ((h :: l :: rest) as cs') =>
      if Ascii.eqb c "%"%char then
        match digit_value 16 h, digit_value 16 l with
        | Some x, Some y => ascii_of_N (x * 16 + y) :: percent_decode rest
        | _, _ => c :: percent_decode cs'
        end
      else c :: percent_decode cs'
  | _ => cs
  end.

Definition ascii_lower (c : ascii) : ascii :=
  let n := nat_of_ascii c in
  if andb (Nat.leb 65 n) (Nat.leb n 90) then ascii_of_nat (n + 32) else c.

Fixpoint drop_spaces (cs : list ascii) : list ascii :=
  match cs with
  | c :: cs' => if is_char c 32 then drop_spaces cs' else cs
  | [] => []
  end.

(** [mimeType] ends with [;], spaces, and [base64] (any case): the rest. *)
Definition strip_base64_marker (m : list ascii) : option (list ascii) :=
  match rev m with
  | c6 :: c5 :: c4 :: c3 :: c2 :: c1 :: r =>
      if String.eqb (string_of_list_ascii (map ascii_lower [c1; c2; c3; c4; c5; c6])) "base64"
      then match drop_spaces r with
           | semi :: r' => if Ascii.eqb semi ";"%char then Some (rev r') else None
           | [] => None
           end
      else None
  | _ => None
  end.

(** HTTP token code points. *)
Definition is_token_char (c : ascii) : bool :=
  let n := nat_of_ascii c in
  orb (andb (Nat.leb 48 n) (Nat.leb n 57))
  (orb (andb (Nat.leb 65 n) (Nat.leb n 90))
  (orb (andb (Nat.leb 97 n) (Nat.leb n 122))
       (existsb (fun x => Ascii.eqb c x)
          (list_ascii_of_string "!#$%&'*+-.^_`|~")))).

Fixpoint split_at_char (sep : ascii) (cs : list ascii) : list ascii * list ascii :=
  match cs with
  | [] => ([], [])
  | c :: cs' =>
      if Ascii.eqb c sep then ([], c :: cs')
      else let (a, b) := split_at_char sep cs' in (c :: a, b)
  end.

Definition nonempty_tokens (cs : list ascii) : bool :=
  andb (negb (Nat.eqb (List.length cs) 0)) (forallb is_token_char cs).

(** MIME type parsing and serialization, reduced as said above. *)
Definition parse_mime (m : list ascii) : option (list ascii) :=
  let (ty, rest) := split_at_char "/"%char m in
  match rest with
  | slash :: rest' =>
      let (sub, params) := split_at_char ";"%char rest' in
      if andb (nonempty_tokens ty) (nonempty_tokens sub)
      then Some (map ascii_lower ty ++ slash :: map ascii_lower sub ++ params)
      else None
  | [] => None
  end.

Definition default_mime : string := "text/plain;charset=US-ASCII".

(** The data URL processor: the MIME type and the bytes of a [data:] URL. *)
Definition decode_dataURL (url : string) : option (string * list byte) :=
  match list_ascii_of_string url with
  | d :: a :: t :: a' :: colon :: rest =>
      if String.eqb (string_of_list_ascii [d; a; t; a'; colon]) "data:" then
        match split_at_comma rest with
        | None => None
        | Some (m, body) =>
            let m := strip_ascii_ws m in
            let body := percent_decode body in
            let decoded :=
              match strip_base64_marker m with
              | Some m' =>
                  match forgiving_base64_decode body with
                  | Some bs => Some (m', bs)
                  | None => None
                  end
              | None => Some (m, map byte_of_ascii body)
              end in
            match decoded with
            | None => None
            | Some (m, bs) =>
                let m := match m with
                         | c :: _ => if Ascii.eqb c ";"%char
                                     then list_ascii_of_string "text/plain" ++ m else m
                         | [] => m
                         end in
                match parse_mime m with
                | Some m' => Some (string_of_list_ascii m', bs)
                | None => Some (default_mime, bs)
                end
            end
        end
      else None
  | _ => None
  end.



(** ** [openDB]

    [openDB()] returns the cached connection [db] when there is one;
    otherwise it issues an [indexedDB.open] request, and the request's
    success handler stores the new connection in [db] and resolves.  Calls
    and request completions are separate events, since a call can be made
    while an earlier request is still pending. *)
Module OpenDB.

Record conn_state := mkConnState {
  db : option nat;        (* the cached connection, named by its request *)
  pending : list nat;     (* open requests not yet completed *)
  requests : nat          (* open requests issued so far *)
}.

Definition init : conn_state := mkConnState None [] 0.

Inductive event :=
| Call                     (* openDB() is called *)
| OpenSuccess (r : nat)    (* request r fires success *)
| OpenError (r : nat).     (* request r fires error *)

(** One event: the connection a promise of [openDB()] resolves with in
    this event, if any, and the new state. *)
Definition step (ev : event) (s : conn_state) : option nat * conn_state :=
  match ev with
  | Call =>
      match db s with
      | Some h => (Some h, s)
      | None => (None, mkConnState None (requests s :: pending s) (S (requests s)))
      end
  | OpenSuccess r =>
      if existsb (Nat.eqb r) (pending s)
      then (Some r, mkConnState (Some r) (remove Nat.eq_dec r (pending s)) (requests s))
      else (None, s)
  | OpenError r =>
      (None, mkConnState (db s) (remove Nat.eq_dec r (pending s)) (requests s))
  end.

Fixpoint run (evs : list event) (s : conn_state) : list nat * conn_state :=
  match evs with
  | [] => ([], s)
  | ev :: evs' =>
      let (o, s1) := step ev s in
      let (outs, s2) := run evs' s1 in
      (match o with Some h => h :: outs | None => outs end, s2)
  end.

End OpenDB.

(** ** [handleFiles]

    What the environment supplies for one file of a batch: the clock at
    its insert, what the [FileReader] does and what the storage engine
    does with its transaction. *)
Record file_env := mkFileEnv {
  env_now : string;
  env_read : read_outcome;
  env_tx : tx_outcome
}.

(** Points of the loop where [handleFiles] awaits. *)
Inductive upload_event :=
| DataURLRead (i : nat)     (* [await fileToDataURL(f)] for file i *)
| AddIssued (i : nat)       (* [addFileRecord(f, dataURL)] called *)
| AddSettled (i : nat).     (* its promise settled *)

Definition add_block (i : nat) : list upload_event :=
  [DataURLRead i; AddIssued i; AddSettled i].

(** The [for ... of] loop, file [i] onward; a rejection ends it. *)
Fixpoint upload_loop (i : nat) (files : list (File * file_env)) (st : ObjStore)
  : result unit * ObjStore * list upload_event :=
  match files with
  | [] => (Ok tt, st, [])
  | (f, env) :: rest =>
      match fileToDataURL (env_read env) f with
      | Err e => (Err e, st, [DataURLRead i])
      | Ok d =>
          match addFileRecord (env_tx env) (env_now env) f d st with
          | (Err e, st1) => (Err e, st1, add_block i)
          | (Ok _, st1) =>
              let '(r, st2, log) := upload_loop (S i) rest st1 in
              (r, st2, add_block i ++ log)
          end
      end
  end.

(** [handleFiles(files, statusEl)]; the status text and the re-render
    after the loop are left out. *)
Definition handleFiles (files : list (File * file_env)) (st : ObjStore)
  : result unit * ObjStore * list upload_event :=
  match files with
  | [] => (Ok tt, st, [])
  | _ => upload_loop 0 files st
  end.

(** The inserts a batch performs, as [insert_seq] takes them. *)
Definition batch_inserts (files : list (File * file_env))
  : list (tx_outcome * string * File * string) :=
  map (fun '(f, env) => (env_tx env, env_now env, f, readAsDataURL f)) files.

(** ** [escapeHtml]

    [text.replace(re, m => table[m])] after [if (!text) return ''], where
    [re] matches each of [&], [<], [>], the double quote and ['] globally.
    A string is taken code unit by code unit, as in the rest of this file. *)
Definition quote_char : ascii := ascii_of_nat 34.

Definition html_entities : list (ascii * string) :=
  [("&"%char, "&amp;"%string); ("<"%char, "&lt;"%string); (">"%char, "&gt;"%string);
   (quote_char, "&quot;"%string); ("'"%char, "&#39;"%string)].

(** The character class of [re]. *)
Definition escape_class (c : ascii) : bool :=
  existsb (Ascii.eqb c) ["&"; "<"; ">"; quote_char; "'"]%char.

Fixpoint lookup_entity (c : ascii) (tbl : list (ascii * string)) : option string :=
  match tbl with
  | [] => None
  | (k, v) :: tbl' => if Ascii.eqb c k then Some v else lookup_entity c tbl'
  end.

(** The replacement of one matched unit; a lookup miss would yield
    [undefined], which the replacer turns into the string "undefined". *)
Definition escape_unit (c : ascii) : list ascii :=
  if escape_class c then
    match lookup_entity c html_entities with
    | Some v => list_ascii_of_string v
    | None => list_ascii_of_string "undefined"
    end
  else [c].

Definition escapeHtml (text : string) : string :=
  if String.eqb text "" then ""
  else string_of_list_ascii (flat_map escape_unit (list_ascii_of_string text)).

(** How an HTML parser reads back the five character references
    [escapeHtml] writes; anything else is kept. *)
Fixpoint html_unescape (cs : list ascii) : list ascii :=
  match cs with
  | "&"%char :: "a"%char :: "m"%char :: "p"%char :: ";"%char :: r => "&"%char :: html_unescape r
  | "&"%char :: "l"%char :: "t"%char :: ";"%char :: r => "<"%char :: html_unescape r
  | "&"%char :: "g"%char :: "t"%char :: ";"%char :: r => ">"%char :: html_unescape r
  | "&"%char :: "q"%char :: "u"%char :: "o"%char :: "t"%char :: ";"%char :: r =>
      quote_char :: html_unescape r
  | "&"%char :: "#"%char :: "3"%char :: "9"%char :: ";"%char :: r => "'"%char :: html_unescape r
  | c :: r => c :: html_unescape r
  | [] => []
  end.

(** ** [renderGallery]

    The tiles, in the order of [files.reverse()]: an image for a record
    with a non-empty [dataURL] whose type starts with [image], a caption
    otherwise.  A tile's click opens the preview of its record; the size
    line is [readableFileSize(f.size)], not modelled here. *)
Inductive gallery_inner :=
| GalleryImg (src alt : string)          (* <img src=.. alt=..> *)
| GalleryCaption (name label : string).  (* <strong>name</strong> label *)

Record gallery_tile := mkGalleryTile {
  tile_file : FileRecord;
  tile_inner : gallery_inner
}.

Inductive gallery_view :=
| GalleryEmptyMessage                    (* "No files yet. ..." *)
| GalleryTiles (tiles : list gallery_tile).

Definition gallery_tile_of (f : FileRecord) : gallery_tile :=
  mkGalleryTile f
    (if andb (negb (String.eqb (dataURL f) "")) (String.prefix "image" (type f))
     then GalleryImg (dataURL f) (escapeHtml (name f))
     else GalleryCaption (escapeHtml (name f))
            (if String.eqb (type f) "" then "file" else type f)).

Definition renderGallery (st : ObjStore) : gallery_view :=
  match getAllFiles st with
  | [] => GalleryEmptyMessage
  | files => GalleryTiles (map gallery_tile_of (rev files))
  end.

(** ** [new Date(s)] on the strings [toISOString] writes

    [YYYY-MM-DDTHH:mm:ss.sssZ] with a valid date and time gives its time
    value in milliseconds; any other string is taken as an invalid date
    (NaN) here. *)
Definition digit_of (c : ascii) : option Z :=
  let n := nat_of_ascii c in
  if andb (Nat.leb 48 n) (Nat.leb n 57) then Some (Z.of_nat n - 48) else None.

Fixpoint digits_of (cs : list ascii) (acc : Z) : option Z :=
  match cs with
  | [] => Some acc
  | c :: cs' =>
      match digit_of c with
      | Some d => digits_of cs' (10 * acc + d)
      | None => None
      end
  end.

Definition leap_year (y : Z) : bool :=
  orb (andb (Z.eqb (y mod 4) 0) (negb (Z.eqb (y mod 100) 0))) (Z.eqb (y mod 400) 0).

Definition days_in_month (y m : Z) : Z :=
  if Z.eqb m 2 then (if leap_year y then 29 else 28)
  else if existsb (Z.eqb m) [4; 6; 9; 11] then 30 else 31.

(** Days from 1970-01-01 to the given proleptic Gregorian date. *)
Definition days_from_civil (y m d : Z) : Z :=
  let y' := if Z.leb m 2 then y - 1 else y in
  let era := y' / 400 in
  let yoe := y' - era * 400 in
  let mp := (m + 9) mod 12 in
  let doy := (153 * mp + 2) / 5 + d - 1 in
  let doe := yoe * 365 + yoe / 4 - yoe / 100 + doy in
  era * 146097 + doe - 719468.

Definition parse_iso_date (s : string) : option Z :=
  match list_ascii_of_string s with
  | [y1; y2; y3; y4; "-"; m1; m2; "-"; d1; d2; "T"; h1; h2; ":"; i1; i2; ":";
     s1; s2; "."; f1; f2; f3; "Z"]%char =>
      match digits_of [y1; y2; y3; y4] 0, digits_of [m1; m2] 0, digits_of [d1; d2] 0,
            digits_of [h1; h2] 0, digits_of [i1; i2] 0, digits_of [s1; s2] 0,
            digits_of [f1; f2; f3] 0 with
      | Some y, Some m, Some d, Some h, Some mi, Some sec, Some ms =>
          if andb (andb (Z.leb 1 m) (Z.leb m 12))
                  (andb (andb (Z.leb 1 d) (Z.leb d (days_in_month y m)))
                        (andb (Z.ltb h 24) (andb (Z.ltb mi 60) (Z.ltb sec 60))))
          then Some (days_from_civil y m d * 86400000 + h * 3600000 + mi * 60000
                     + sec * 1000 + ms)
          else None
      | _, _, _, _, _, _, _ => None
      end
  | _ => None
  end.

(** ** [renderDataTable]

    [files.sort((a,b) => new Date(b.uploadedAt) - new Date(a.uploadedAt))]:
    the comparator's value, NaN read as +0 as [Array.prototype.sort] does.
    For a consistent comparator the stable sort the standard requires has
    one result, computed here by insertion. *)
Definition upload_cmp (a b : FileRecord) : Z :=
  match parse_iso_date (uploadedAt b), parse_iso_date (uploadedAt a) with
  | Some tb, Some ta => tb - ta
  | _, _ => 0
  end.

Fixpoint insert_sorted (cmp : FileRecord -> FileRecord -> Z) (x : FileRecord)
    (l : list FileRecord) : list FileRecord :=
  match l with
  | [] => [x]
  | y :: ys => if Z.ltb 0 (cmp x y) then y :: insert_sorted cmp x ys else x :: l
  end.

Fixpoint stable_sort (cmp : FileRecord -> FileRecord -> Z) (l : list FileRecord)
  : list FileRecord :=
  match l with
  | [] => []
  | x :: xs => insert_sorted cmp x (stable_sort cmp xs)
  end.

(** [—], the placeholder of an empty type, in UTF-8. *)
Definition em_dash : string :=
  String (ascii_of_nat 226) (String (ascii_of_nat 128) (String (ascii_of_nat 148) EmptyString)).

(** A table row: the name and type cells, and the [data-id] of its two
    buttons ([${f.id}], the decimal form of the key); the size and date
    cells ([readableFileSize], [toLocaleString]) are not modelled. *)
Record table_row := mkTableRow {
  row_file : FileRecord;
  row_name_cell : string;
  row_type_cell : string;
  row_data_id : string
}.

Definition table_row_of (f : FileRecord) : table_row :=
  mkTableRow f (escapeHtml (name f))
    (escapeHtml (if String.eqb (type f) "" then em_dash else type f))
    (decimal_string (id f)).

Inductive table_view :=
| TableEmptyMessage                      (* "No files yet." *)
| TableRows (rows : list table_row).

Definition renderDataTable (st : ObjStore) : table_view :=
  let files := stable_sort upload_cmp (getAllFiles st) in
  match files with
  | [] => TableEmptyMessage
  | _ => TableRows (map table_row_of files)
  end.

(** A row button's click: [getAllFiles()], then
    [files.find(x => x.id == id)] (a number compared with a string: the
    string is converted by [Number]), then the action; a delete asks
    [confirm] first, then calls [deleteFile(id)] with the same string.
    The re-render after a delete is left out. *)
Inductive click_result :=
| AlertNotFound                          (* alert('File not found') *)
| Downloaded (href download : string)    (* a.href, a.download; a.click() *)
| DeleteCancelled
| DeleteRejected (e : DOMError)
| Deleted
| NoAction.

Definition row_click (action id_str : string) (confirmed : bool) (o : tx_outcome)
    (st : ObjStore) : click_result * ObjStore :=
  match find (fun x => key_matches (Number (JStr id_str)) (id x)) (getAllFiles st) with
  | None => (AlertNotFound, st)
  | Some file =>
      if String.eqb action "download" then (Downloaded (dataURL file) (name file), st)
      else if String.eqb action "delete" then
        if negb confirmed then (DeleteCancelled, st)
        else match deleteFile o (JStr id_str) st with
             | (Ok _, st') => (Deleted, st')
             | (Err e, st') => (DeleteRejected e, st')
             end
      else (NoAction, st)
  end.

(** The time value of a record's [uploadedAt]. *)
Definition upload_time (r : FileRecord) : option Z := parse_iso_date (uploadedAt r).

(** What [handleFiles] leaves in the status element: its text, whether the
    2.5 s timer that clears it was set, and whether
    [refreshGalleryAndData()] was called.  A rejection of the loop leaves
    the function before the lines after it. *)
Record upload_status := mkUploadStatus {
  status_text : string;
  clear_timer_set : bool;
  refreshed : bool
}.

Definition handleFiles_status (files : list (File * file_env)) (st : ObjStore)
    (status0 : string) : result unit * ObjStore * upload_status :=
  let '(r, st', _) := handleFiles files st in
  match files with
  | [] => (r, st', mkUploadStatus status0 false false)
  | _ =>
      let n := decimal_string (Z.of_nat (List.length files)) in
      match r with
      | Ok _ => (r, st', mkUploadStatus ("Uploaded " ++ n ++ " file(s).") true true)
      | Err _ => (r, st', mkUploadStatus ("Uploading " ++ n ++ " file(s)...") false false)
      end
  end.

(** A sample upload: "a.txt", three bytes, [text/plain]. *)
Definition sample_file : File := mkFile "a.txt" "text/plain" [x61; x62; x63].

Definition sample_now : string := "2026-01-01T00:00:00.000Z".

Definition sample_url : string := "data:text/plain;base64,YWJj".

(** A file without a MIME type. *)
Definition untyped_file : File := mkFile "a.bin" "" [x00; xff].

(** A batch of two files whose second read fails. *)
Definition sample_batch : list (File * file_env) :=
  [(sample_file, mkFileEnv sample_now ReadSucceeds Completes);
   (untyped_file, mkFileEnv sample_now (ReadFails NotReadableError) Completes)].

(** Three stored uploads: the first and the third at the same instant,
    the second five months later. *)
Definition sample_later : string := "2026-06-01T00:00:00.000Z".

Definition sample_records : list FileRecord :=
  [mkFileRecord 1 "a.txt" "text/plain" 3 sample_now sample_url;
   mkFileRecord 2 "b.txt" "text/plain" 3 sample_later sample_url;
   mkFileRecord 3 "c.txt" "text/plain" 3 sample_now sample_url].

Definition sample_table_store : ObjStore := mkObjStore 4 sample_records.

(** * Proofs *)

(** ** The object store *)

Lemma find_key_In k rs r : find_key k rs = Some r -> In r rs /\ id r = k.
Proof.
  induction rs as [|r' rs IH]; simpl; [discriminate|].
  destruct (Z.eqb_spec (id r') k) as [E|E].
  - intros H; injection H as <-. auto.
  - intros H; destruct (IH H); auto.
Qed.

Lemma find_key_None k rs : find_key k rs = None -> forall r, In r rs -> id r <> k.
Proof.
  induction rs as [|r' rs IH]; simpl; [tauto|].
  destruct (Z.eqb_spec (id r') k) as [E|E]; [discriminate|].
  intros H r [<-|Hr]; auto.
Qed.

Lemma In_insert_by_key x r rs : In x (insert_by_key r rs) <-> x = r \/ In x rs.
Proof.
  induction rs as [|r' rs IH]; simpl.
  - intuition congruence.
  - destruct (Z.ltb (id r) (id r')); simpl; [intuition congruence|].
    rewrite IH. intuition congruence.
Qed.

Lemma find_key_insert_other k r rs :
  id r <> k -> find_key k (insert_by_key r rs) = find_key k rs.
Proof.
  intros Hne. induction rs as [|r' rs IH]; simpl.
  - apply Z.eqb_neq in Hne. now rewrite Hne.
  - destruct (Z.ltb (id r) (id r')); simpl.
    + apply Z.eqb_neq in Hne. now rewrite Hne.
    + now rewrite IH.
Qed.

Lemma find_key_filter n k rs :
  key_matches n k = false ->
  find_key k (filter (fun r => negb (key_matches n (id r))) rs) = find_key k rs.
Proof.
  intros Hk. induction rs as [|r rs IH]; simpl; [reflexivity|].
  destruct (Z.eqb_spec (id r) k) as [E|E].
  - subst k. rewrite Hk. simpl. now rewrite Z.eqb_refl.
  - destruct (key_matches n (id r)); simpl; [exact IH|].
    apply Z.eqb_neq in E. now rewrite E.
Qed.

Lemma filter_keep_all n rs :
  (forall r, In r rs -> key_matches n (id r) = false) ->
  filter (fun r => negb (key_matches n (id r))) rs = rs.
Proof.
  induction rs as [|r rs IH]; simpl; intros H; [reflexivity|].
  rewrite (H r (or_introl eq_refl)). simpl. f_equal. auto.
Qed.

(** What a successful [addFileRecord] did to the store. *)
Lemma addFileRecord_inv o now f d st k st' :
  addFileRecord o now f d st = (Ok k, st') ->
  k = current_number st /\ find_key k (records st) = None /\
  (st' = st \/
   (o = Completes /\
    st' = mkObjStore (k + 1)
            (insert_by_key (mkFileRecord k (file_name f) (file_type f)
                              (file_size f) now d) (records st)))).
Proof.
  unfold addFileRecord, store_add.
  destruct (Z.ltb max_generated_key (current_number st)); [discriminate|].
  destruct (find_key (current_number st) (records st)) eqn:F; [discriminate|].
  destruct o; intros H; inversion H; subst; auto.
Qed.

Lemma addFileRecord_key_bound o now f d st k st' :
  addFileRecord o now f d st = (Ok k, st') -> k <= max_generated_key.
Proof.
  unfold addFileRecord, store_add.
  destruct (Z.ltb_spec max_generated_key (current_number st)); [discriminate|].
  destruct (find_key (current_number st) (records st)); [discriminate|].
  destruct o; intros Ho; inversion Ho; subst; lia.
Qed.

Lemma addFileRecord_Err_state o now f d st e st' :
  addFileRecord o now f d st = (Err e, st') -> st' = st.
Proof.
  unfold addFileRecord, store_add.
  destruct (Z.ltb max_generated_key (current_number st)); [congruence|].
  destruct (find_key (current_number st) (records st)); [congruence|].
  destruct o; congruence.
Qed.

Lemma run_ops_app xs ys st : run_ops (xs ++ ys) st = run_ops ys (run_ops xs st).
Proof. unfold run_ops. now rewrite fold_left_app. Qed.

Lemma no_key_run_op k x st :
  is_add x = false ->
  (forall r, In r (records st) -> id r <> k) ->
  (forall r, In r (records (run_op x st)) -> id r <> k).
Proof.
  destruct x as [o now f d|o v|]; simpl; [discriminate| |auto].
  intros _ H. unfold deleteFile, store_delete.
  destruct (Number v); try destruct o; simpl; auto;
    intros r Hr; apply filter_In in Hr; apply H, Hr.
Qed.

Lemma find_key_run_op k r x st :
  find_key k (records st) = Some r -> op_deletes k x = false ->
  find_key k (records (run_op x st)) = Some r.
Proof.
  intros Hf. destruct x as [o now f d|o v|]; simpl; intros Hd; [ | | exact Hf].
  - destruct (addFileRecord o now f d st) as [[k'|e] st'] eqn:A; simpl.
    + destruct (addFileRecord_inv _ _ _ _ _ _ _ A) as (-> & Hn & [->|[_ ->]]); [exact Hf|].
      simpl. rewrite find_key_insert_other; [exact Hf|]. simpl.
      intros E. subst k. congruence.
    + apply addFileRecord_Err_state in A. now subst.
  - unfold deleteFile, store_delete. simpl in Hd.
    destruct (Number v); try destruct o; cbn [snd records]; try exact Hf;
      rewrite find_key_filter; assumption.
Qed.

(** The key generator of a reachable store is above all its keys, and the
    records are in ascending key order. *)
Lemma wf_empty_store : wf_store empty_store.
Proof. split; simpl; [tauto|constructor]. Qed.

Lemma insert_by_key_sorted r rs :
  StronglySorted (fun a b => id a < id b) rs ->
  (forall x, In x rs -> id x < id r) ->
  StronglySorted (fun a b => id a < id b) (insert_by_key r rs).
Proof.
  induction rs as [|r' rs IH]; simpl; intros Hs Hlt.
  - repeat constructor.
  - assert (id r' < id r) by auto.
    destruct (Z.ltb_spec (id r) (id r')); [lia|].
    inversion Hs as [|? ? Hs' Hall]; subst.
    constructor; [apply IH; auto|].
    apply Forall_forall. intros x Hx. apply In_insert_by_key in Hx as [->|Hx]; [lia|].
    rewrite Forall_forall in Hall; auto.
Qed.

Lemma filter_sorted (p : FileRecord -> bool) rs :
  StronglySorted (fun a b => id a < id b) rs ->
  StronglySorted (fun a b => id a < id b) (filter p rs).
Proof.
  induction rs as [|r rs IH]; simpl; intros Hs; [constructor|].
  inversion Hs as [|? ? Hs' Hall]; subst.
  destruct (p r); [|auto].
  constructor; [auto|]. rewrite Forall_forall in *.
  intros x Hx. apply filter_In in Hx. apply Hall, Hx.
Qed.

Lemma wf_run_op x st : wf_store st -> wf_store (run_op x st).
Proof.
  intros [Hlt Hs]. destruct x as [o now f d|o v|]; simpl; [| |split; auto].
  - destruct (addFileRecord o now f d st) as [[k|e] st'] eqn:A; simpl.
    + destruct (addFileRecord_inv _ _ _ _ _ _ _ A) as (-> & _ & [->|[_ ->]]); [split; auto|].
      split; simpl.
      * intros r Hr. apply In_insert_by_key in Hr as [->|Hr]; simpl; [lia|].
        specialize (Hlt r Hr). lia.
      * apply insert_by_key_sorted; auto.
    + apply addFileRecord_Err_state in A. subst. split; auto.
  - unfold deleteFile, store_delete.
    destruct (Number v); try destruct o; simpl; try (split; auto);
      try (intros r Hr; apply filter_In in Hr; apply Hlt, Hr);
      apply filter_sorted; auto.
Qed.

Lemma wf_run_ops xs st : wf_store st -> wf_store (run_ops xs st).
Proof.
  revert st. induction xs as [|x xs IH]; simpl; intros st H; [exact H|].
  apply IH, wf_run_op, H.
Qed.

Lemma wf_reachable xs : wf_store (run_ops xs empty_store).
Proof. apply wf_run_ops, wf_empty_store. Qed.



Example number_examples :
  map string_to_number [""; " 42 "; "0x1F"; "-3"; "1.50e1"; "1.5"; "abc"; "-Infinity"; "1e"; "5."; ".5"]%string
  = [NInt 0; NInt 42; NInt 31; NInt (-3); NInt 15; NFrac; NNaN; NInf true; NNaN; NInt 5; NFrac].
Proof. reflexivity. Qed.

(** Decimal and hexadecimal literals round to the nearest double, and
    no-break space is white space. *)
Example number_rounding_examples :
  map string_to_number
    ["1.00000000000000001"; String (ascii_of_nat 160) "1"; "9007199254740993";
     "0x20000000000001"; "1e400"; "-1e-400"; "4.35"]%string
  = [NInt 1; NInt 1; NInt 9007199254740992; NInt 9007199254740992; NInf false;
     NInt 0; NFrac].
Proof. vm_compute. reflexivity. Qed.

Example decimal_string_examples :
  map decimal_string [0; 7; 10; 1234; -56] = ["0"; "7"; "10"; "1234"; "-56"]%string.
Proof. reflexivity. Qed.

(** ** Claims on the record store *)

(** C1 (counterexample): [addFileRecord] settles its promise with the key
    as soon as the [add] request succeeds, before the transaction commits;
    if the commit then fails (here over quota), the caller holds key 1 but
    the following [getAllFiles] has no record with that key. *)
Lemma insert_commit_abort_unlisted :
  fst (addFileRecord (CommitFails QuotaExceededError) sample_now sample_file
         sample_url empty_store) = Ok 1 /\
  ~ (exists r, In r (getAllFiles (snd (addFileRecord (CommitFails QuotaExceededError)
                     sample_now sample_file sample_url empty_store))) /\ id r = 1).
Proof.
  split; [reflexivity|]. simpl. intros (r & [] & _).
Qed.

(** C1 (amended): when the transaction of [addFileRecord] commits, the
    following [getAllFiles] lists a record whose [id] is the returned key
    and whose name, type, size, timestamp and data URL are those of the
    record built from the file. *)
Theorem insert_then_listed o now f d st k st' :
  o = Completes ->
  addFileRecord o now f d st = (Ok k, st') ->
  In (mkFileRecord k (file_name f) (file_type f) (file_size f) now d)
     (getAllFiles st').
Proof.
  intros -> A.
  destruct (addFileRecord_inv _ _ _ _ _ _ _ A) as (-> & Hn & [->|[_ ->]]).
  - revert A. unfold addFileRecord, store_add.
    destruct (Z.ltb max_generated_key (current_number st)); [discriminate|].
    rewrite Hn. intros H. injection H as H. destruct st; simpl in H.
    injection H as H _. lia.
  - unfold getAllFiles, store_getAll. simpl. apply In_insert_by_key. now left.
Qed.

Lemma insert_then_listed_witness :
  In (mkFileRecord 1 "a.txt" "text/plain" 3 sample_now sample_url)
     (getAllFiles (snd (addFileRecord Completes sample_now sample_file sample_url
                          empty_store))).
Proof.
  apply (insert_then_listed Completes sample_now sample_file sample_url empty_store 1);
    reflexivity.
Defined.

(** The store holding the sample record under key 1. *)
Definition store_with_sample : ObjStore :=
  snd (addFileRecord Completes sample_now sample_file sample_url empty_store).

(** C2 (counterexample): [deleteFile] resolves when the [delete] request
    succeeds; if the transaction then fails to commit, the record with key
    1 is still listed after the call resolved. *)
Lemma delete_commit_abort_still_listed :
  fst (deleteFile (CommitFails UnknownError) (JNum (NInt 1)) store_with_sample) = Ok tt /\
  exists r, In r (getAllFiles (snd (deleteFile (CommitFails UnknownError) (JNum (NInt 1))
                                     store_with_sample))) /\ id r = 1.
Proof.
  split; [reflexivity|].
  eexists. split; [simpl; left; reflexivity|reflexivity].
Qed.

(** C2 (amended): when the transaction of [deleteFile(k)] commits, no
    [getAllFiles] lists a record with id [k] until an insert happens. *)
Theorem delete_then_unlisted o k st st1 ops :
  o = Completes ->
  deleteFile o (JNum (NInt k)) st = (Ok tt, st1) ->
  forallb (fun x => negb (is_add x)) ops = true ->
  forall r, In r (getAllFiles (run_ops ops st1)) -> id r <> k.
Proof.
  intros -> D Hops.
  assert (H1 : forall r, In r (records st1) -> id r <> k).
  { unfold deleteFile, store_delete in D. simpl in D. injection D as <-.
    simpl. intros r Hr. apply filter_In in Hr as [_ Hr].
    apply negb_true_iff, Z.eqb_neq in Hr. congruence. }
  clear D. revert st1 H1. induction ops as [|x ops IH]; simpl in *; intros st1 H1.
  - exact H1.
  - apply andb_true_iff in Hops as [Hx Hops]. apply negb_true_iff in Hx.
    apply IH; [exact Hops|]. apply no_key_run_op; assumption.
Qed.

Lemma delete_then_unlisted_witness :
  ~ In (mkFileRecord 1 "a.txt" "text/plain" 3 sample_now sample_url)
       (getAllFiles (run_ops [OpGetAll; OpDelete Completes (JNum (NInt 7))]
                      (snd (deleteFile Completes (JNum (NInt 1)) store_with_sample)))).
Proof.
  intros H.
  exact (delete_then_unlisted Completes 1 store_with_sample
           (snd (deleteFile Completes (JNum (NInt 1)) store_with_sample))
           [OpGetAll; OpDelete Completes (JNum (NInt 7))]
           eq_refl eq_refl eq_refl _ H eq_refl).
Defined.

(** C3: deleting a key that no stored record has, with any argument whose
    [Number] is a valid key, settles successfully and leaves the store as
    it was, unless the storage engine fails the request itself (the
    separate [WriteError] case). *)
Theorem delete_absent_noop o v st :
  (forall e, o <> RequestFails e) ->
  Number v <> NNaN ->
  (forall r, In r (records st) -> key_matches (Number v) (id r) = false) ->
  deleteFile o v st = (Ok tt, st).
Proof.
  intros Ho Hn Habs. unfold deleteFile, store_delete.
  destruct (Number v) as [z| |b|] eqn:N; [| | |congruence];
    (destruct o as [|e|e]; [|exfalso; exact (Ho e eq_refl)|reflexivity]);
    rewrite (filter_keep_all _ _ Habs); destruct st; reflexivity.
Qed.

Lemma delete_absent_noop_witness :
  deleteFile Completes (JStr "42") store_with_sample = (Ok tt, store_with_sample).
Proof.
  apply delete_absent_noop.
  - discriminate.
  - discriminate.
  - intros r [<-|[]]. reflexivity.
Defined.

(** C4 (counterexample): an aborted commit reverts the key generator, so
    the insert after it is handed the same key: two sequential inserts
    return [1] twice. *)
Lemma insert_seq_repeated_key :
  fst (insert_seq [(CommitFails QuotaExceededError, sample_now, sample_file, sample_url);
                   (Completes, sample_now, sample_file, sample_url)] empty_store)
  = Ok [1; 1].
Proof. reflexivity. Qed.

(** C4 (amended): on a reachable store, N sequential inserts whose
    transactions all commit return N keys in strictly increasing order,
    each at least the generator's current number before the batch and so
    above every key already stored. *)
Theorem insert_seq_fresh_ids xs st ids st' :
  wf_store st ->
  Forall (fun x => fst (fst (fst x)) = Completes) xs ->
  insert_seq xs st = (Ok ids, st') ->
  StronglySorted Z.lt ids /\ List.length ids = List.length xs /\
  Forall (fun i => current_number st <= i /\
                   forall r, In r (records st) -> id r < i) ids.
Proof.
  revert st ids st'.
  induction xs as [|[[[o now] f] d] xs IH]; simpl; intros st ids st' Hwf Hc H.
  - injection H as <- _. repeat constructor.
  - inversion Hc as [|? ? Ho Hc']; subst. simpl in Ho. subst o.
    destruct (addFileRecord Completes now f d st) as [[k|e] st1] eqn:A; [|discriminate].
    destruct (insert_seq xs st1) as [[ks|e] st2] eqn:S; [|discriminate].
    injection H as <- _.
    pose proof (addFileRecord_inv _ _ _ _ _ _ _ A) as (-> & Hn & Hst1).
    assert (Hst1' : st1 = mkObjStore (current_number st + 1)
              (insert_by_key (mkFileRecord (current_number st) (file_name f)
                 (file_type f) (file_size f) now d) (records st))).
    { destruct Hst1 as [->|[_ E]]; [|exact E].
      revert A. unfold addFileRecord, store_add.
      destruct (Z.ltb max_generated_key (current_number st)); [discriminate|].
      rewrite Hn. intros E. injection E as E. destruct st; simpl in E.
      injection E as E _. lia. }
    clear Hst1.
    assert (Hwf1 : wf_store st1).
    { replace st1 with (run_op (OpAdd Completes now f d) st)
        by (simpl; now rewrite A). apply wf_run_op, Hwf. }
    destruct (IH st1 ks st2 Hwf1 Hc' S) as (Hs & Hl & Hall).
    rewrite Hst1' in Hall. simpl in Hall.
    destruct Hwf as [Hlt _].
    split; [|split].
    + constructor; [exact Hs|].
      rewrite Forall_forall in *. intros i Hi. destruct (Hall i Hi). lia.
    + simpl. now rewrite Hl.
    + constructor.
      * split; [lia|]. exact Hlt.
      * rewrite Forall_forall in *. intros i Hi. destruct (Hall i Hi) as [Hge _].
        split; [lia|]. intros r Hr. specialize (Hlt r Hr). lia.
Qed.

Lemma insert_seq_fresh_ids_witness :
  StronglySorted Z.lt [2; 3] /\ List.length [2; 3] = 2%nat /\
  Forall (fun i => current_number store_with_sample <= i /\
                   forall r, In r (records store_with_sample) -> id r < i) [2; 3].
Proof.
  apply (insert_seq_fresh_ids
           [(Completes, sample_now, sample_file, sample_url);
            (Completes, sample_now, sample_file, sample_url)]
           store_with_sample [2; 3]
           (snd (insert_seq [(Completes, sample_now, sample_file, sample_url);
                             (Completes, sample_now, sample_file, sample_url)]
                            store_with_sample))).
  - apply (wf_reachable [OpAdd Completes sample_now sample_file sample_url]).
  - repeat constructor.
  - reflexivity.
Defined.

(** C6: no operation rewrites a stored record.  A record stored under key
    [k] is the record [getAllFiles] lists under [k] after any sequence of
    inserts, reads and deletes none of which targets [k]; the operations
    are inserts, reads and deletes only. *)
Theorem record_frame ops st k r :
  find_key k (records st) = Some r ->
  forallb (fun x => negb (op_deletes k x)) ops = true ->
  find_key k (getAllFiles (run_ops ops st)) = Some r.
Proof.
  revert st. induction ops as [|x ops IH]; simpl; intros st Hf Hops; [exact Hf|].
  apply andb_true_iff in Hops as [Hx Hops]. apply negb_true_iff in Hx.
  apply IH; [|exact Hops]. apply find_key_run_op; assumption.
Qed.

Lemma record_frame_witness :
  find_key 1 (getAllFiles
    (run_ops [OpAdd Completes sample_now sample_file sample_url; OpGetAll;
              OpDelete Completes (JStr "2"); OpDelete Completes (JNum (NInt 9))]
             store_with_sample))
  = Some (mkFileRecord 1 "a.txt" "text/plain" 3 sample_now sample_url).
Proof.
  apply record_frame; reflexivity.
Defined.

(** ** [Number(...)] on the decimal form of a key *)

Definition dec_digit (c : ascii) : Prop := exists d, (d < 10)%N /\ c = digit_char d.

Lemma digit_value_digit_char d : (d < 10)%N -> digit_value 10 (digit_char d) = Some d.
Proof.
  intros Hd.
  assert (d = 0 \/ d = 1 \/ d = 2 \/ d = 3 \/ d = 4 \/ d = 5 \/ d = 6 \/ d = 7 \/
          d = 8 \/ d = 9)%N as Hc by lia.
  repeat destruct Hc as [->|Hc]; subst; reflexivity.
Qed.

Lemma dec_digit_facts c :
  dec_digit c ->
  (exists d, digit_value 10 c = Some d /\ (d < 10)%N) /\
  is_ws c = false /\ Ascii.eqb c "-"%char = false /\ Ascii.eqb c "+"%char = false /\
  Ascii.eqb c "I"%char = false /\
  is_char c 120 = false /\ is_char c 88 = false /\ is_char c 111 = false /\
  is_char c 79 = false /\ is_char c 98 = false /\ is_char c 66 = false.
Proof.
  intros (d & Hd & ->).
  split; [exists d; split; [apply digit_value_digit_char|]; exact Hd|].
  assert (d = 0 \/ d = 1 \/ d = 2 \/ d = 3 \/ d = 4 \/ d = 5 \/ d = 6 \/ d = 7 \/
          d = 8 \/ d = 9)%N as Hc by lia.
  repeat destruct Hc as [->|Hc]; subst; vm_compute; repeat split.
Qed.

Lemma decimal_digits_aux_value f n acc :
  (n < 2 ^ N.of_nat f)%N -> (0 < f)%nat ->
  digits_value 10 0 (decimal_digits_aux f n acc) = digits_value 10 n acc.
Proof.
  revert n acc. induction f as [|f IH]; intros n acc Hn Hf; [lia|].
  simpl decimal_digits_aux.
  assert (Hm : (n mod 10 < 10)%N) by (apply N.mod_lt; discriminate).
  destruct (N.ltb_spec n 10) as [Hlt|Hge].
  - simpl. rewrite digit_value_digit_char by exact Hm.
    f_equal. rewrite N.mod_small by exact Hlt. lia.
  - destruct f as [|f'].
    + simpl in Hn. lia.
    + rewrite IH.
      * simpl. rewrite digit_value_digit_char by exact Hm. f_equal.
        pose proof (N.div_mod n 10). lia.
      * rewrite Nat2N.inj_succ, N.pow_succ_r' in Hn.
        set (P := (2 ^ N.of_nat (S f'))%N) in *. clearbody P.
        apply N.Div0.div_lt_upper_bound; lia.
      * lia.
Qed.

Lemma decimal_digits_aux_dec f n acc :
  Forall dec_digit acc -> Forall dec_digit (decimal_digits_aux f n acc).
Proof.
  revert n acc. induction f as [|f IH]; intros n acc Hacc; simpl; [exact Hacc|].
  assert (Hd : dec_digit (digit_char (n mod 10))).
  { exists (n mod 10)%N. split; [apply N.mod_lt; discriminate|reflexivity]. }
  destruct (N.ltb n 10); [constructor; assumption|].
  apply IH. constructor; assumption.
Qed.

Lemma decimal_digits_aux_nonempty f n acc : decimal_digits_aux (S f) n acc <> [].
Proof.
  revert n acc. induction f as [|f IH]; intros n acc; simpl;
    destruct (N.ltb n 10); try discriminate; apply IH.
Qed.

Lemma decimal_digits_value n : digits_value 10 0 (decimal_digits n) = Some n.
Proof.
  unfold decimal_digits. rewrite decimal_digits_aux_value; [reflexivity| |lia].
  rewrite Nat2N.inj_succ, N2Nat.id, N.pow_succ_r'.
  pose proof (N.size_gt n). lia.
Qed.

Lemma drop_ws_dec cs : Forall dec_digit cs -> drop_ws cs = cs.
Proof.
  intros H. destruct H as [|c cs Hc _]; [reflexivity|].
  simpl. destruct (dec_digit_facts c Hc) as (_ & -> & _). reflexivity.
Qed.

Lemma span_digits_dec cs : Forall dec_digit cs -> span_digits cs = (cs, []).
Proof.
  induction 1 as [|c cs Hc _ IH]; [reflexivity|].
  simpl. destruct (dec_digit_facts c Hc) as ((d & -> & _) & _). now rewrite IH.
Qed.

Lemma digits_value_app_nil base a cs : digits_value base a (cs ++ []) = digits_value base a cs.
Proof. now rewrite app_nil_r. Qed.

Lemma flog2_int z : 0 < z -> flog2 z 1 = Z.log2 z.
Proof.
  intros Hz. unfold flog2. change (Z.log2 1 + 1) with 1.
  rewrite Z.div_1_r, Z.log2_mul_pow2 by lia. lia.
Qed.

(** Integers up to 2^53 are doubles. *)
Lemma to_double_int z : 0 <= z <= 2 ^ 53 -> number_of_dbl (dbl_of_Z z) = NInt z.
Proof.
  intros Hz. unfold dbl_of_Z, to_double.
  destruct (Z.eqb_spec z 0) as [->|Hz0]; [reflexivity|].
  assert (Hlt : 0 < z) by lia.
  unfold round_pos. rewrite Z.abs_eq by lia. rewrite flog2_int by lia.
  assert (Hl : Z.log2 z <= 53)
    by (rewrite <- (Z.log2_pow2 53) by lia; now apply Z.log2_le_mono).
  pose proof (Z.log2_nonneg z) as Hl0.
  destruct (Z.eq_dec (Z.log2 z) 53) as [E|E].
  - assert (z = 2 ^ 53) as ->.
    { pose proof (Z.log2_spec z Hlt) as [H1 _]. rewrite E in H1. lia. }
    vm_compute. reflexivity.
  - rewrite Z.max_l by lia.
    replace (Z.max 0 (- (Z.log2 z - 52))) with (52 - Z.log2 z) by lia.
    replace (Z.max 0 (Z.log2 z - 52)) with 0 by lia.
    unfold round_half_even. rewrite Z.pow_0_r, Z.mul_1_l, Z.div_1_r, Z.mod_1_r.
    assert (Hp : 2 ^ (52 - Z.log2 z) <> 0) by (apply Z.pow_nonzero; lia).
    destruct (Z.eq_dec (Z.log2 z) 52) as [E2|E2].
    + rewrite E2. simpl Z.compare. cbv iota.
      replace (52 - 52) with 0 by lia. replace (52 - 52) with 0 by lia.
      rewrite Z.pow_0_r, !Z.mul_1_r.
      assert (H1 : 2 ^ 53 < 2 ^ 1024) by (apply Z.pow_lt_mono_r; lia).
      replace (Z.leb (2 ^ 1024) z) with false by (symmetry; apply Z.leb_gt; lia).
      replace (Z.ltb z 0) with false by (symmetry; apply Z.ltb_ge; lia).
      simpl. f_equal. lia.
    + simpl Z.compare. cbv iota.
      replace (Z.leb 0 (Z.log2 z - 52)) with false by (symmetry; apply Z.leb_gt; lia).
      simpl andb. cbv iota. unfold number_of_dbl.
      replace (Z.ltb z 0) with false by (symmetry; apply Z.ltb_ge; lia).
      replace (Z.leb 0 (Z.log2 z - 52)) with false by (symmetry; apply Z.leb_gt; lia).
      replace (- (Z.log2 z - 52)) with (52 - Z.log2 z) by lia.
      rewrite Z.mod_mul, Z.eqb_refl, Z.div_mul by exact Hp. reflexivity.
Qed.

Lemma string_to_number_digits cs v :
  cs <> [] -> Forall dec_digit cs -> digits_value 10 0 cs = Some v ->
  Z.of_N v <= 2 ^ 53 ->
  string_to_number (string_of_list_ascii cs) = NInt (Z.of_N v).
Proof.
  intros Hne Hd Hv Hb. unfold string_to_number.
  rewrite list_ascii_of_string_of_list_ascii.
  assert (Ht : trim cs = cs).
  { unfold trim. rewrite (drop_ws_dec cs Hd), drop_ws_dec, rev_involutive; [reflexivity|].
    now apply Forall_rev. }
  rewrite Ht. destruct cs as [|c cs]; [congruence|].
  inversion Hd as [|? ? Hc Hcs]; subst.
  destruct (dec_digit_facts c Hc) as (_ & _ & Hm & Hp & HI & _).
  assert (Hr : match c :: cs with
               | z :: x :: ds =>
                   if is_char z 48 then
                     if orb (is_char x 120) (is_char x 88) then Some (16%N, ds)
                     else if orb (is_char x 111) (is_char x 79) then Some (8%N, ds)
                     else if orb (is_char x 98) (is_char x 66) then Some (2%N, ds)
                     else None
                   else None
               | _ => None
               end = None).
  { destruct cs as [|x ds]; [reflexivity|].
    inversion Hcs as [|? ? Hx _]; subst.
    destruct (dec_digit_facts x Hx) as (_ & _ & _ & _ & _ & H1 & H2 & H3 & H4 & H5 & H6).
    rewrite H1, H2, H3, H4, H5, H6. destruct (is_char c 48); reflexivity. }
  rewrite Hr. rewrite Hm, Hp.
  replace (String.eqb (string_of_list_ascii (c :: cs)) "Infinity") with false
    by (simpl; unfold String.eqb; fold String.eqb; now rewrite HI).
  unfold parse_unsigned_decimal. rewrite (span_digits_dec (c :: cs) Hd).
  simpl parse_exponent. rewrite digits_value_app_nil, Hv.
  unfold number_of_decimal. simpl Z.leb. cbv iota beta.
  rewrite Z.pow_0_r, Z.mul_1_r. apply to_double_int. lia.
Qed.

Lemma Number_decimal_string k :
  0 <= k <= 2 ^ 53 -> Number (JStr (decimal_string k)) = NInt k.
Proof.
  intros Hk. simpl.
  assert (decimal_string k = string_of_list_ascii (decimal_digits (Z.to_N k))) as ->
    by (destruct k; [reflexivity|reflexivity|lia]).
  rewrite (string_to_number_digits _ (Z.to_N k)).
  - f_equal. lia.
  - apply decimal_digits_aux_nonempty.
  - apply decimal_digits_aux_dec. constructor.
  - apply decimal_digits_value.
  - lia.
Qed.

(** C9: [deleteFile] applies [Number] to its argument, so the decimal
    string of a key the generator can hand out (what the table's [data-id]
    attribute holds; keys are at most 2^53, where every integer is a
    double) deletes exactly what the key itself does, in every outcome; a string that is
    not a numeric literal becomes NaN, which is not a valid key: the call
    rejects with [DataError] and deletes nothing. *)
Theorem delete_coerces_id o st :
  (forall k, 0 <= k <= max_generated_key ->
     deleteFile o (JStr (decimal_string k)) st = deleteFile o (JNum (NInt k)) st) /\
  (forall s, string_to_number s = NNaN ->
     deleteFile o (JStr s) st = (Err DataError, st)).
Proof.
  split.
  - intros k Hk. unfold deleteFile. now rewrite Number_decimal_string by exact Hk.
  - intros s Hs. unfold deleteFile, store_delete. simpl. now rewrite Hs.
Qed.

Lemma delete_coerces_id_witness :
  deleteFile Completes (JStr (decimal_string 1)) store_with_sample
  = deleteFile Completes (JNum (NInt 1)) store_with_sample /\
  deleteFile Completes (JStr "abc") store_with_sample = (Err DataError, store_with_sample).
Proof.
  destruct (delete_coerces_id Completes store_with_sample) as [H1 H2].
  split; [apply H1; unfold max_generated_key; lia|apply H2; reflexivity].
Defined.

Example dataURL_examples :
  readAsDataURL sample_file = sample_url /\
  decode_dataURL sample_url = Some ("text/plain"%string, [x61; x62; x63]) /\
  decode_dataURL (readAsDataURL untyped_file)
  = Some ("application/octet-stream"%string, [x00; xff]) /\
  decode_dataURL "data:TEXT/Plain;charset=x;BASE64,YQ==" = Some ("text/plain;charset=x"%string, [x61]).
Proof. vm_compute. repeat split. Qed.

(** ** Base64 round trip *)
















(** ** Data URL round trip *)














(** ** The cached connection of [openDB] *)

Module OpenDBProofs.
Import OpenDB.

Definition is_call (ev : event) : bool :=
  match ev with Call => true | _ => false end.

(** With a cached connection and no open request in flight, an event
    changes nothing, and a call resolves with the cached connection. *)
Lemma step_cached h s ev :
  db s = Some h -> pending s = [] ->
  step ev s = (if is_call ev then Some h else None, s).
Proof.
  destruct s as [d p n]; simpl. intros -> ->.
  destruct ev; reflexivity.
Qed.

(** C7 (counterexample): two overlapping calls each issue an open
    request; the first call resolves with connection 0, and once the second
    request succeeds it replaces the cache, so a later call resolves with
    connection 1, and the database has been opened twice. *)
Lemma openDB_overlap_two_handles :
  run [Call; Call; OpenSuccess 0; OpenSuccess 1; Call] init
  = ([0; 1; 1]%nat, mkConnState (Some 1%nat) [] 2).
Proof. reflexivity. Qed.

(** C7 (amended): once [db] holds a connection [h] and no open request
    is pending (as after the start-up [await openDB()]), every later call
    resolves with [h], one resolution per call, and nothing changes: no
    request is issued and [db] keeps [h]. *)
Theorem openDB_cached_idempotent h s evs :
  db s = Some h -> pending s = [] ->
  run evs s = (repeat h (List.length (filter is_call evs)), s).
Proof.
  intros Hd Hp. induction evs as [|ev evs IH]; [reflexivity|].
  simpl. rewrite (step_cached h s ev Hd Hp), IH.
  destruct ev; reflexivity.
Qed.

Lemma openDB_cached_idempotent_witness :
  run [Call; OpenSuccess 0] init = ([0%nat], mkConnState (Some 0%nat) [] 1) /\
  run [Call; OpenSuccess 3; OpenError 0; Call]
      (mkConnState (Some 0%nat) [] 1) = ([0; 0]%nat, mkConnState (Some 0%nat) [] 1).
Proof.
  split; [reflexivity|].
  apply (openDB_cached_idempotent 0 (mkConnState (Some 0%nat) [] 1)); reflexivity.
Defined.

End OpenDBProofs.

(** ** Batches of uploads *)

Lemma find_key_insert_same k r rs :
  find_key k rs = None -> id r = k -> find_key k (insert_by_key r rs) = Some r.
Proof.
  intros Hn Hid. induction rs as [|r' rs IH]; simpl.
  - now rewrite Hid, Z.eqb_refl.
  - simpl in Hn. destruct (Z.eqb (id r') k) eqn:E; [discriminate|].
    destruct (Z.ltb (id r) (id r')); simpl.
    + now rewrite Hid, Z.eqb_refl.
    + rewrite E. auto.
Qed.

Lemma addFileRecord_Completes now f d st k st' :
  addFileRecord Completes now f d st = (Ok k, st') ->
  find_key k (records st) = None /\
  st' = mkObjStore (k + 1)
          (insert_by_key (mkFileRecord k (file_name f) (file_type f)
                            (file_size f) now d) (records st)).
Proof.
  unfold addFileRecord, store_add.
  destruct (Z.ltb max_generated_key (current_number st)); [discriminate|].
  destruct (find_key (current_number st) (records st)) eqn:F; [discriminate|].
  intros H. injection H as <- <-. auto.
Qed.

(** Inserts never remove a record. *)
Lemma insert_seq_frame xs st res st' k r :
  insert_seq xs st = (res, st') ->
  find_key k (records st) = Some r -> find_key k (records st') = Some r.
Proof.
  revert st res. induction xs as [|[[[o now] f] d] xs IH]; intros st res.
  - simpl. intros H; injection H as _ <-. auto.
  - simpl. intros H Hf.
    assert (Hf1 : find_key k (records (run_op (OpAdd o now f d) st)) = Some r)
      by (apply find_key_run_op; [exact Hf | reflexivity]).
    simpl in Hf1.
    destruct (addFileRecord o now f d st) as [[k0|e] st1]; simpl in Hf1.
    + destruct (insert_seq xs st1) as [[ks|e] st2] eqn:Hs;
        injection H as _ <-; exact (IH _ _ Hs Hf1).
    + injection H as _ <-. exact Hf1.
Qed.

(** Every insert of a successful sequence whose transaction committed has
    its record in the final store. *)
Lemma insert_seq_committed xs st ids st' j now f d :
  insert_seq xs st = (Ok ids, st') ->
  nth_error xs j = Some (Completes, now, f, d) ->
  exists k, In (mkFileRecord k (file_name f) (file_type f) (file_size f) now d)
               (records st').
Proof.
  revert st ids j. induction xs as [|[[[o now'] f'] d'] xs IH]; intros st ids j.
  - destruct j; discriminate.
  - simpl. destruct (addFileRecord o now' f' d' st) as [[k0|e] st1] eqn:A;
      [|discriminate].
    destruct (insert_seq xs st1) as [[ks|e] st2] eqn:Hs; [|discriminate].
    intros H; injection H as _ <-.
    destruct j as [|j]; simpl.
    + intros E; injection E as -> -> -> ->.
      destruct (addFileRecord_Completes _ _ _ _ _ _ A) as [Hn ->].
      exists k0. eapply find_key_In, insert_seq_frame; [exact Hs|].
      apply find_key_insert_same; [exact Hn | reflexivity].
    + exact (IH _ _ _ Hs).
Qed.

Lemma handleFiles_loop files st : handleFiles files st = upload_loop 0 files st.
Proof. destruct files; reflexivity. Qed.

(** The loop from file [i] on.  When it resolves, every file was read and
    inserted, in order, each insert settled before the next read.  When it
    rejects with [e], some file [k] is the one that failed: the files
    before it were all read and inserted, leaving the final store, and
    then either the read of file [k] rejected with [e], or it succeeded
    and the insert of file [k] into that store rejected with [e]. *)
Lemma upload_loop_outcome i files st r st' log :
  upload_loop i files st = (r, st', log) ->
  (r = Ok tt ->
     log = flat_map add_block (seq i (List.length files)) /\
     exists ids, insert_seq (batch_inserts files) st = (Ok ids, st')) /\
  (forall e, r = Err e ->
     exists k f env, nth_error files k = Some (f, env) /\
       (exists ids, insert_seq (batch_inserts (firstn k files)) st = (Ok ids, st')) /\
       ((env_read env = ReadFails e /\
         log = flat_map add_block (seq i k) ++ [DataURLRead (i + k)]) \/
        (env_read env = ReadSucceeds /\
         addFileRecord (env_tx env) (env_now env) f (readAsDataURL f) st' = (Err e, st') /\
         log = flat_map add_block (seq i (S k))))).
Proof.
  revert i st r st' log. induction files as [|[f env] files IH];
    intros i st r st' log; simpl.
  - intros H; injection H as <- <- <-. split; [|discriminate].
    intros _. split; [reflexivity|]. exists []. reflexivity.
  - destruct (env_read env) as [|e0] eqn:Er; simpl.
    + destruct (addFileRecord (env_tx env) (env_now env) f (readAsDataURL f) st)
        as [[k0|e0] st1] eqn:A.
      * destruct (upload_loop (S i) files st1) as [[r2 st2] log2] eqn:L.
        intros H; injection H as <- <- <-.
        destruct (IH _ _ _ _ _ L) as [Hok Herr]. split.
        -- intros Hr. destruct (Hok Hr) as (-> & ids & Hs). split; [reflexivity|].
           exists (k0 :: ids). unfold batch_inserts in *. cbn [map firstn insert_seq].
           now rewrite ?A, Hs.
        -- intros e He.
           destruct (Herr e He) as (k & f' & env' & Hn & (ids & Hs) & Hcase).
           exists (S k), f', env'. split; [exact Hn|]. split.
           ++ exists (k0 :: ids). unfold batch_inserts in *. cbn [map firstn insert_seq].
           now rewrite ?A, Hs.
           ++ destruct Hcase as [(Hr' & ->)|(Hr' & Ha & ->)]; [left|right].
              ** split; [exact Hr'|]. idtac.
                 replace (i + S k)%nat with (S i + k)%nat by lia. reflexivity.
              ** split; [exact Hr'|]. split; [exact Ha|]. reflexivity.
      * intros H; injection H as <- <- <-.
        pose proof (addFileRecord_Err_state _ _ _ _ _ _ _ A) as ->.
        split; [discriminate|]. intros e He. injection He as <-.
        exists 0%nat, f, env. split; [reflexivity|]. split.
        -- exists []. reflexivity.
        -- right. split; [exact Er|]. split; [exact A|].
           reflexivity.
    + intros H; injection H as <- <- <-.
      split; [discriminate|]. intros e He. injection He as <-.
      exists 0%nat, f, env. split; [reflexivity|]. split.
      * exists []. reflexivity.
      * left. split; [exact Er|]. now rewrite Nat.add_0_r.
Qed.

(** Every file of a prefix of the batch whose inserts all succeeded, and
    whose transaction committed, has its record listed afterwards. *)
Lemma batch_prefix_listed files k st ids st' j f env :
  insert_seq (batch_inserts (firstn k files)) st = (Ok ids, st') ->
  (j < k)%nat -> nth_error files j = Some (f, env) -> env_tx env = Completes ->
  exists id, In (mkFileRecord id (file_name f) (file_type f) (file_size f)
                   (env_now env) (readAsDataURL f)) (getAllFiles st').
Proof.
  intros Hs Hj Hn Ht.
  apply (insert_seq_committed _ _ _ _ j _ _ _ Hs).
  unfold batch_inserts. rewrite nth_error_map, nth_error_firstn.
  apply Nat.ltb_lt in Hj. rewrite Hj, Hn. simpl. now rewrite Ht.
Qed.

(** C8: [handleFiles] awaits each insert before it reads the next file,
    so its log is a sequence of whole blocks [read i; add issued i; add
    settled i] for i = 0, 1, ... in order.  When it resolves, all N files
    were inserted one after the other and every file whose transaction
    committed is listed.  When it rejects with [e], there is a file [k]
    that failed: its read rejected with [e] (the log ends with that read),
    or its insert rejected with [e] in the store the loop ends with (the
    log ends with that insert's block).  That store is the store after the
    inserts of files 0 .. k-1, all of which succeeded: nothing is undone,
    and each of them whose transaction committed is listed.  Since this
    holds for every batch, it also holds for the part of a batch processed
    before it is cut short. *)
Theorem handleFiles_sequential_no_rollback files st r st' log :
  handleFiles files st = (r, st', log) ->
  (r = Ok tt ->
     log = flat_map add_block (seq 0 (List.length files)) /\
     (exists ids, insert_seq (batch_inserts files) st = (Ok ids, st')) /\
     (forall j f env, nth_error files j = Some (f, env) -> env_tx env = Completes ->
        exists id, In (mkFileRecord id (file_name f) (file_type f) (file_size f)
                         (env_now env) (readAsDataURL f)) (getAllFiles st'))) /\
  (forall e, r = Err e ->
     exists k f env, nth_error files k = Some (f, env) /\
       (exists ids, insert_seq (batch_inserts (firstn k files)) st = (Ok ids, st')) /\
       ((env_read env = ReadFails e /\
         log = flat_map add_block (seq 0 k) ++ [DataURLRead k]) \/
        (env_read env = ReadSucceeds /\
         addFileRecord (env_tx env) (env_now env) f (readAsDataURL f) st' = (Err e, st') /\
         log = flat_map add_block (seq 0 (S k)))) /\
       (forall j f' env', (j < k)%nat -> nth_error files j = Some (f', env') ->
          env_tx env' = Completes ->
          exists id, In (mkFileRecord id (file_name f') (file_type f') (file_size f')
                           (env_now env') (readAsDataURL f')) (getAllFiles st'))).
Proof.
  rewrite handleFiles_loop. intros H.
  destruct (upload_loop_outcome _ _ _ _ _ _ H) as [Hok Herr]. split.
  - intros Hr. destruct (Hok Hr) as (Hl & ids & Hs).
    split; [exact Hl|]. split; [exists ids; exact Hs|].
    intros j f env Hn Ht.
    assert (Hj : (j < List.length files)%nat)
      by (apply nth_error_Some; congruence).
    apply (batch_prefix_listed files (List.length files) st ids st' j f env);
      [now rewrite firstn_all| exact Hj | exact Hn | exact Ht].
  - intros e He.
    destruct (Herr e He) as (k & f & env & Hn & (ids & Hs) & Hcase).
    exists k, f, env. split; [exact Hn|]. split; [exists ids; exact Hs|]. split.
    + exact Hcase.
    + intros j f' env' Hj Hn' Ht.
      exact (batch_prefix_listed files k st ids st' j f' env' Hs Hj Hn' Ht).
Qed.

Lemma handleFiles_sequential_no_rollback_witness :
  handleFiles sample_batch empty_store
  = (Err NotReadableError,
     mkObjStore 2 [mkFileRecord 1 "a.txt" "text/plain" 3 sample_now sample_url],
     add_block 0 ++ [DataURLRead 1]) /\
  (exists k f env, nth_error sample_batch k = Some (f, env) /\
     (exists ids, insert_seq (batch_inserts (firstn k sample_batch)) empty_store
       = (Ok ids, mkObjStore 2 [mkFileRecord 1 "a.txt" "text/plain" 3 sample_now sample_url])) /\
     ((env_read env = ReadFails NotReadableError /\
       add_block 0 ++ [DataURLRead 1] = flat_map add_block (seq 0 k) ++ [DataURLRead k]) \/
      (env_read env = ReadSucceeds /\
       addFileRecord (env_tx env) (env_now env) f (readAsDataURL f)
         (mkObjStore 2 [mkFileRecord 1 "a.txt" "text/plain" 3 sample_now sample_url])
       = (Err NotReadableError,
          mkObjStore 2 [mkFileRecord 1 "a.txt" "text/plain" 3 sample_now sample_url]) /\
       add_block 0 ++ [DataURLRead 1] = flat_map add_block (seq 0 (S k)))) /\
     (forall j f' env', (j < k)%nat -> nth_error sample_batch j = Some (f', env') ->
        env_tx env' = Completes ->
        exists id, In (mkFileRecord id (file_name f') (file_type f') (file_size f')
                         (env_now env') (readAsDataURL f'))
                      (getAllFiles (mkObjStore 2 [mkFileRecord 1 "a.txt" "text/plain" 3
                                                    sample_now sample_url])))).
Proof.
  assert (H : handleFiles sample_batch empty_store
              = (Err NotReadableError,
                 mkObjStore 2 [mkFileRecord 1 "a.txt" "text/plain" 3 sample_now sample_url],
                 add_block 0 ++ [DataURLRead 1])) by (vm_compute; reflexivity).
  split; [exact H|].
  exact (proj2 (handleFiles_sequential_no_rollback _ _ _ _ _ H) NotReadableError eq_refl).
Defined.

(** ** [escapeHtml] *)

Lemma escapeHtml_units s :
  list_ascii_of_string (escapeHtml s) = flat_map escape_unit (list_ascii_of_string s).
Proof.
  unfold escapeHtml. destruct (String.eqb_spec s "") as [->|_]; [reflexivity|].
  apply list_ascii_of_string_of_list_ascii.
Qed.

Lemma unescape_escape_unit c rest :
  html_unescape (escape_unit c ++ rest) = c :: html_unescape rest.
Proof. destruct c as [[] [] [] [] [] [] [] []]; reflexivity. Qed.

Lemma escape_unit_safe c x :
  In x (escape_unit c) ->
  x <> "<"%char /\ x <> ">"%char /\ x <> quote_char /\ x <> "'"%char.
Proof.
  destruct c as [[] [] [] [] [] [] [] []]; vm_compute;
    intros H; repeat destruct H as [<-|H]; try contradiction;
    repeat split; discriminate.
Qed.

(** [escapeHtml] writes none of [<], [>], the double quote and [']: its
    result can stand in element text and in a quoted attribute value. *)
Theorem escapeHtml_no_markup s c :
  In c (list_ascii_of_string (escapeHtml s)) ->
  c <> "<"%char /\ c <> ">"%char /\ c <> quote_char /\ c <> "'"%char.
Proof.
  rewrite escapeHtml_units. intros H.
  apply in_flat_map in H as (c' & _ & H). exact (escape_unit_safe c' c H).
Qed.

Lemma escapeHtml_no_markup_witness :
  "&"%char <> "<"%char /\ "&"%char <> ">"%char /\ "&"%char <> quote_char /\
  "&"%char <> "'"%char.
Proof.
  apply (escapeHtml_no_markup "a<b"). vm_compute. tauto.
Defined.

(** Reading the character references of [escapeHtml s] back gives [s]:
    the page shows the text unchanged. *)
Theorem escapeHtml_roundtrip s :
  html_unescape (list_ascii_of_string (escapeHtml s)) = list_ascii_of_string s.
Proof.
  rewrite escapeHtml_units. induction (list_ascii_of_string s) as [|c cs IH];
    [reflexivity|].
  simpl. rewrite unescape_escape_unit, IH. reflexivity.
Qed.

(** A string without any of the five characters comes out unchanged. *)
Theorem escapeHtml_plain s :
  Forall (fun c => escape_class c = false) (list_ascii_of_string s) ->
  escapeHtml s = s.
Proof.
  intros H. rewrite <- (string_of_list_ascii_of_string (escapeHtml s)),
    <- (string_of_list_ascii_of_string s), escapeHtml_units.
  f_equal. induction H as [|c cs Hc _ IH]; [reflexivity|].
  simpl. unfold escape_unit at 1. rewrite Hc. simpl. now rewrite IH.
Qed.

Lemma escapeHtml_plain_witness : escapeHtml "a.txt" = "a.txt"%string.
Proof. apply escapeHtml_plain. repeat constructor. Defined.

(** ** The listing and the gallery *)

Lemma ids_pos_run_op x st :
  1 <= current_number st ->
  (forall r, In r (records st) -> 1 <= id r <= max_generated_key) ->
  1 <= current_number (run_op x st) /\
  (forall r, In r (records (run_op x st)) -> 1 <= id r <= max_generated_key).
Proof.
  intros Hc Hr. destruct x as [o now f d|o v|]; simpl; [| |auto].
  - destruct (addFileRecord o now f d st) as [[k|e] st'] eqn:A; simpl.
    + pose proof (addFileRecord_key_bound _ _ _ _ _ _ _ A) as Hb.
      destruct (addFileRecord_inv _ _ _ _ _ _ _ A) as (-> & _ & [->|[_ ->]]);
        [auto|]. simpl. split; [lia|].
      intros r Hin. apply In_insert_by_key in Hin as [->|Hin]; simpl; auto; lia.
    + apply addFileRecord_Err_state in A. subst. auto.
  - unfold deleteFile, store_delete.
    destruct (Number v); try destruct o; simpl; split; auto;
      intros r Hin; apply filter_In in Hin; apply Hr, Hin.
Qed.

Lemma ids_pos_reachable xs :
  1 <= current_number (run_ops xs empty_store) /\
  (forall r, In r (records (run_ops xs empty_store)) -> 1 <= id r <= max_generated_key).
Proof.
  assert (H : forall st, 1 <= current_number st ->
            (forall r, In r (records st) -> 1 <= id r <= max_generated_key) ->
            1 <= current_number (run_ops xs st) /\
            (forall r, In r (records (run_ops xs st)) -> 1 <= id r <= max_generated_key)).
  { induction xs as [|x xs IH]; simpl; intros st Hc Hr; [auto|].
    destruct (ids_pos_run_op x st Hc Hr). apply IH; auto. }
  apply H; simpl; [lia | tauto].
Qed.

(** [getAllFiles] on any store the three operations can reach lists its
    records in strictly increasing order of their positive ids; in
    particular no two records share an id. *)
Theorem getAllFiles_sorted_ids xs :
  StronglySorted (fun a b => id a < id b) (getAllFiles (run_ops xs empty_store)) /\
  Forall (fun r => 1 <= id r) (getAllFiles (run_ops xs empty_store)).
Proof.
  split.
  - apply (wf_reachable xs).
  - apply Forall_forall. intros r Hr. apply (proj2 (ids_pos_reachable xs) r Hr).
Qed.

Lemma StronglySorted_snoc {A} (R : A -> A -> Prop) l a :
  StronglySorted R l -> Forall (fun x => R x a) l -> StronglySorted R (l ++ [a]).
Proof.
  induction l as [|b l IH]; simpl; intros Hs Hf.
  - repeat constructor.
  - inversion Hs; subst. inversion Hf; subst. constructor; [auto|].
    apply Forall_app; auto.
Qed.

Lemma StronglySorted_rev {A} (R : A -> A -> Prop) l :
  StronglySorted R l -> StronglySorted (fun a b => R b a) (rev l).
Proof.
  induction l as [|a l IH]; simpl; intros Hs; [constructor|].
  inversion Hs; subst. apply StronglySorted_snoc; [auto|].
  apply Forall_rev. assumption.
Qed.

(** [renderGallery] on a reachable store shows the placeholder exactly
    when there is no record, and otherwise one tile per record, newest id
    first: the tiles' ids strictly decrease. *)
Theorem renderGallery_newest_first xs :
  (renderGallery (run_ops xs empty_store) = GalleryEmptyMessage <->
   getAllFiles (run_ops xs empty_store) = []) /\
  (forall tiles, renderGallery (run_ops xs empty_store) = GalleryTiles tiles ->
     map tile_file tiles = rev (getAllFiles (run_ops xs empty_store)) /\
     StronglySorted (fun a b => id b < id a) (map tile_file tiles)).
Proof.
  pose proof (proj2 (wf_reachable xs)) as Hs.
  unfold renderGallery. destruct (getAllFiles (run_ops xs empty_store)) as [|f fs] eqn:E.
  - split; [tauto | discriminate].
  - split; [split; discriminate|].
    intros tiles H. injection H as <-.
    rewrite map_map. simpl. rewrite map_id.
    split; [reflexivity|].
    change (rev fs ++ [f]) with (rev (f :: fs)).
    apply (StronglySorted_rev (fun a b => id a < id b)).
    unfold getAllFiles, store_getAll in E. rewrite <- E. exact Hs.
Qed.

(** ** The order of the data table *)

Section StableSort.
Variable cmp : FileRecord -> FileRecord -> Z.
Variable t : FileRecord -> Z.

Lemma insert_sorted_perm x l : Permutation (insert_sorted cmp x l) (x :: l).
Proof.
  induction l as [|y ys IH]; simpl; [reflexivity|].
  destruct (Z.ltb 0 (cmp x y)); [|reflexivity].
  rewrite IH. apply perm_swap.
Qed.

Lemma stable_sort_perm l : Permutation (stable_sort cmp l) l.
Proof.
  induction l as [|x xs IH]; simpl; [reflexivity|].
  rewrite insert_sorted_perm, IH. reflexivity.
Qed.

Lemma insert_sorted_sorted x l :
  (forall y, In y l -> cmp x y = t y - t x) ->
  Sorted (fun a b => t b <= t a) l ->
  Sorted (fun a b => t b <= t a) (insert_sorted cmp x l).
Proof.
  induction l as [|y ys IH]; simpl; intros Hc Hs; [repeat constructor|].
  rewrite (Hc y (or_introl eq_refl)).
  destruct (Z.ltb_spec 0 (t y - t x)) as [Hlt|Hge].
  - apply Sorted_inv in Hs as [Hs Hh]. constructor.
    + apply IH; auto.
    + destruct ys as [|z zs]; simpl; [constructor; lia|].
      rewrite (Hc z (or_intror (or_introl eq_refl))).
      inversion Hh; subst.
      destruct (Z.ltb 0 (t z - t x)); constructor; lia.
  - constructor; [exact Hs|]. constructor. lia.
Qed.

Lemma stable_sort_sorted l :
  (forall a b, In a l -> In b l -> cmp a b = t b - t a) ->
  Sorted (fun a b => t b <= t a) (stable_sort cmp l).
Proof.
  induction l as [|x xs IH]; simpl; intros Hc; [constructor|].
  apply insert_sorted_sorted.
  - intros y Hy. apply Hc; [now left|].
    right. eapply Permutation_in; [apply stable_sort_perm|exact Hy].
  - apply IH. intros a b Ha Hb. apply Hc; right; assumption.
Qed.

Lemma insert_sorted_filter T x l :
  (forall y, In y l -> cmp x y = t y - t x) ->
  filter (fun r => Z.eqb (t r) T) (insert_sorted cmp x l) =
  filter (fun r => Z.eqb (t r) T) (x :: l).
Proof.
  induction l as [|y ys IH]; intros Hc; [reflexivity|].
  cbn [insert_sorted]. rewrite (Hc y (or_introl eq_refl)).
  destruct (Z.ltb_spec 0 (t y - t x)) as [Hlt|Hge]; [|reflexivity].
  cbn [filter]. rewrite IH by (intros z Hz; apply Hc; now right). cbn [filter].
  destruct (Z.eqb_spec (t x) T), (Z.eqb_spec (t y) T); try lia; reflexivity.
Qed.

Lemma stable_sort_filter T l :
  (forall a b, In a l -> In b l -> cmp a b = t b - t a) ->
  filter (fun r => Z.eqb (t r) T) (stable_sort cmp l) = filter (fun r => Z.eqb (t r) T) l.
Proof.
  induction l as [|x xs IH]; simpl; intros Hc; [reflexivity|].
  rewrite insert_sorted_filter.
  - simpl. rewrite IH; [reflexivity|]. intros a b Ha Hb. apply Hc; right; assumption.
  - intros y Hy. apply Hc; [now left|].
    right. eapply Permutation_in; [apply stable_sort_perm|exact Hy].
Qed.

End StableSort.

Lemma Sorted_weaken {A} (R1 R2 : A -> A -> Prop) l :
  (forall a b, In a l -> In b l -> R1 a b -> R2 a b) -> Sorted R1 l -> Sorted R2 l.
Proof.
  induction l as [|a l IH]; intros Himp Hs; [constructor|].
  apply Sorted_inv in Hs as [Hs Hh]. constructor.
  - apply IH; [|exact Hs]. intros x y Hx Hy. apply Himp; right; assumption.
  - destruct l as [|b l]; constructor. inversion Hh; subst.
    apply Himp; simpl; auto.
Qed.

(** [renderDataTable] shows the placeholder exactly when there is no
    record; otherwise its rows hold every record once, newest upload
    first, and records uploaded at the same instant keep the order of
    [getAllFiles] (increasing id): the sort is stable.  Every
    [uploadedAt] is assumed to be a time [toISOString] writes. *)
Theorem renderDataTable_sorted st :
  (forall r, In r (getAllFiles st) -> upload_time r <> None) ->
  (renderDataTable st = TableEmptyMessage <-> getAllFiles st = []) /\
  (forall rows, renderDataTable st = TableRows rows ->
     Permutation (map row_file rows) (getAllFiles st) /\
     Sorted (fun a b => forall ta tb, upload_time a = Some ta -> upload_time b = Some tb ->
                        tb <= ta) (map row_file rows) /\
     (forall T, filter (fun r => match upload_time r with Some x => Z.eqb x T | None => false end)
                       (map row_file rows) =
                filter (fun r => match upload_time r with Some x => Z.eqb x T | None => false end)
                       (getAllFiles st))).
Proof.
  intros Hp.
  set (t := fun r => match upload_time r with Some x => x | None => 0 end).
  assert (Ht : forall r, In r (getAllFiles st) -> upload_time r = Some (t r)).
  { intros r Hr. unfold t. destruct (upload_time r) eqn:Eu; [reflexivity|].
    exfalso. exact (Hp r Hr Eu). }
  assert (Hc : forall a b, In a (getAllFiles st) -> In b (getAllFiles st) ->
                 upload_cmp a b = t b - t a).
  { intros a b Ha Hb. unfold upload_cmp. fold (upload_time a) (upload_time b).
    now rewrite (Ht a Ha), (Ht b Hb). }
  pose proof (stable_sort_perm upload_cmp (getAllFiles st)) as Hperm.
  unfold renderDataTable.
  destruct (stable_sort upload_cmp (getAllFiles st)) as [|f fs] eqn:E.
  - split; [split; [intros _|reflexivity]|discriminate].
    apply Permutation_nil. exact Hperm.
  - split.
    + split; [discriminate|]. intros H0. rewrite H0 in Hperm.
      apply Permutation_sym, Permutation_nil in Hperm. discriminate.
    + intros rows H. injection H as <-. change (map row_file (table_row_of f :: map table_row_of fs)) with (map row_file (map table_row_of (f :: fs))).
      rewrite map_map, (map_ext (fun x => row_file (table_row_of x)) (fun x => x)), map_id
        by reflexivity.
      assert (Hin : forall x, In x (f :: fs) -> In x (getAllFiles st))
        by (intros x Hx; eapply Permutation_in; [exact Hperm|exact Hx]).
      split; [exact Hperm|]. split.
      * rewrite <- E. eapply Sorted_weaken; [|apply (stable_sort_sorted upload_cmp t); exact Hc].
        intros a b Ha Hb Hab ta tb Hta Htb. rewrite E in Ha, Hb.
        rewrite (Ht a (Hin a Ha)) in Hta. rewrite (Ht b (Hin b Hb)) in Htb.
        injection Hta as <-. injection Htb as <-. exact Hab.
      * intros T.
        rewrite (filter_ext_in _ (fun r => Z.eqb (t r) T) (f :: fs))
          by (intros a Ha; now rewrite (Ht a (Hin a Ha))).
        rewrite (filter_ext_in _ (fun r => Z.eqb (t r) T) (getAllFiles st))
          by (intros a Ha; now rewrite (Ht a Ha)).
        rewrite <- E. apply stable_sort_filter. exact Hc.
Qed.

Lemma renderDataTable_sorted_witness :
  renderDataTable sample_table_store
  = TableRows [table_row_of (mkFileRecord 2 "b.txt" "text/plain" 3 sample_later sample_url);
               table_row_of (mkFileRecord 1 "a.txt" "text/plain" 3 sample_now sample_url);
               table_row_of (mkFileRecord 3 "c.txt" "text/plain" 3 sample_now sample_url)] /\
  ((renderDataTable sample_table_store = TableEmptyMessage <->
    getAllFiles sample_table_store = []) /\
   (forall rows, renderDataTable sample_table_store = TableRows rows ->
     Permutation (map row_file rows) (getAllFiles sample_table_store) /\
     Sorted (fun a b => forall ta tb, upload_time a = Some ta -> upload_time b = Some tb ->
                        tb <= ta) (map row_file rows) /\
     (forall T, filter (fun r => match upload_time r with Some x => Z.eqb x T | None => false end)
                       (map row_file rows) =
                filter (fun r => match upload_time r with Some x => Z.eqb x T | None => false end)
                       (getAllFiles sample_table_store)))).
Proof.
  split; [vm_compute; reflexivity|].
  apply renderDataTable_sorted.
  intros r Hr. vm_compute in Hr.
  destruct Hr as [<-|[<-|[<-|[]]]]; vm_compute; discriminate.
Defined.

(** ** The buttons of the data table *)

Lemma sorted_ids_unique l a b :
  StronglySorted (fun x y => id x < id y) l -> In a l -> In b l -> id a = id b -> a = b.
Proof.
  induction l as [|c l IH]; simpl; [tauto|]. intros Hs Ha Hb Hab.
  apply StronglySorted_inv in Hs as [Hs Hf]. rewrite Forall_forall in Hf.
  destruct Ha as [<-|Ha], Hb as [<-|Hb]; auto.
  - specialize (Hf b Hb). lia.
  - specialize (Hf a Ha). lia.
Qed.

Lemma find_by_id l f :
  StronglySorted (fun x y => id x < id y) l -> In f l ->
  find (fun x => Z.eqb (id f) (id x)) l = Some f.
Proof.
  intros Hs Hf. induction l as [|y ys IH]; [destruct Hf|]. simpl.
  destruct (Z.eqb_spec (id f) (id y)) as [E|E].
  - f_equal. apply (sorted_ids_unique (y :: ys)); simpl; auto.
  - destruct Hf as [<-|Hf]; [congruence|].
    apply StronglySorted_inv in Hs as [Hs _]. auto.
Qed.

Lemma find_none_all {A} (p : A -> bool) l :
  (forall x, In x l -> p x = false) -> find p l = None.
Proof.
  induction l as [|x l IH]; simpl; intros H; [reflexivity|].
  rewrite (H x (or_introl eq_refl)). apply IH. auto.
Qed.

Lemma Number_row_data_id xs f :
  In f (getAllFiles (run_ops xs empty_store)) ->
  Number (JStr (row_data_id (table_row_of f))) = NInt (id f).
Proof.
  intros Hf. apply Number_decimal_string.
  pose proof (proj2 (ids_pos_reachable xs) f Hf). unfold max_generated_key in *. lia.
Qed.

Lemma row_click_find xs f action c o :
  In f (getAllFiles (run_ops xs empty_store)) ->
  row_click action (row_data_id (table_row_of f)) c o (run_ops xs empty_store) =
  if String.eqb action "download" then (Downloaded (dataURL f) (name f), run_ops xs empty_store)
  else if String.eqb action "delete" then
    if negb c then (DeleteCancelled, run_ops xs empty_store)
    else match store_delete o (NInt (id f)) (run_ops xs empty_store) with
         | (Ok _, st') => (Deleted, st')
         | (Err e, st') => (DeleteRejected e, st')
         end
  else (NoAction, run_ops xs empty_store).
Proof.
  intros Hf. pose proof (Number_row_data_id xs f Hf) as HN.
  pose proof (find_by_id _ f (proj2 (wf_reachable xs)) Hf) as Hfind.
  unfold row_click, deleteFile, getAllFiles, store_getAll. rewrite HN.
  change (fun x => key_matches (NInt (id f)) (id x)) with (fun x => Z.eqb (id f) (id x)).
  rewrite Hfind. reflexivity.
Qed.

(** On a reachable store, the buttons of the row of record [f] act on
    [f]: [==] between the stored number and the [data-id] string finds
    [f] and no other record, Download hands out [f]'s data URL and name,
    a declined confirmation changes nothing, and a confirmed delete whose
    transaction commits removes [f] and only [f]. *)
Theorem row_click_on_row xs f c o :
  In f (getAllFiles (run_ops xs empty_store)) ->
  row_click "download" (row_data_id (table_row_of f)) c o (run_ops xs empty_store)
  = (Downloaded (dataURL f) (name f), run_ops xs empty_store) /\
  row_click "delete" (row_data_id (table_row_of f)) false o (run_ops xs empty_store)
  = (DeleteCancelled, run_ops xs empty_store) /\
  row_click "delete" (row_data_id (table_row_of f)) true Completes (run_ops xs empty_store)
  = (Deleted, mkObjStore (current_number (run_ops xs empty_store))
                (filter (fun r => negb (Z.eqb (id f) (id r)))
                   (records (run_ops xs empty_store)))).
Proof.
  intros Hf. rewrite !(row_click_find xs f _ _ _ Hf). repeat split.
Qed.

Lemma row_click_on_row_witness :
  row_click "download" "1" false Completes store_with_sample
  = (Downloaded sample_url "a.txt", store_with_sample) /\
  row_click "delete" "1" false Completes store_with_sample
  = (DeleteCancelled, store_with_sample) /\
  row_click "delete" "1" true Completes store_with_sample
  = (Deleted, mkObjStore 2 []).
Proof.
  exact (row_click_on_row [OpAdd Completes sample_now sample_file sample_url]
           (mkFileRecord 1 "a.txt" "text/plain" 3 sample_now sample_url) false Completes
           (or_introl eq_refl)).
Defined.

(** Once the delete of [f]'s row has gone through, any further click on
    a button of that row (still on screen until the table is re-rendered)
    alerts [File not found] and changes nothing. *)
Theorem row_click_after_delete xs f a c o st' :
  In f (getAllFiles (run_ops xs empty_store)) ->
  row_click "delete" (row_data_id (table_row_of f)) true Completes (run_ops xs empty_store)
  = (Deleted, st') ->
  row_click a (row_data_id (table_row_of f)) c o st' = (AlertNotFound, st').
Proof.
  intros Hf H. rewrite (row_click_find xs f _ _ _ Hf) in H.
  injection H as <-. cbn [store_delete key_matches].
  unfold row_click. rewrite (Number_row_data_id xs f Hf).
  rewrite find_none_all; [reflexivity|].
  intros x Hx. apply filter_In in Hx as [_ Hx]. simpl.
  apply negb_true_iff in Hx. exact Hx.
Qed.

Lemma row_click_after_delete_witness :
  row_click "download" "1" false Completes (mkObjStore 2 []) = (AlertNotFound, mkObjStore 2 []).
Proof.
  apply (row_click_after_delete [OpAdd Completes sample_now sample_file sample_url]
           (mkFileRecord 1 "a.txt" "text/plain" 3 sample_now sample_url));
    [left; reflexivity | reflexivity].
Defined.

(** Deleting, with a committed transaction, the id an insert just
    returned (in the decimal form the table writes) gives back the listing
    the store had before the insert, whether or not the insert's own
    transaction committed. *)
Theorem add_then_delete_restores xs o now f d k st1 :
  addFileRecord o now f d (run_ops xs empty_store) = (Ok k, st1) ->
  getAllFiles (snd (deleteFile Completes (JStr (decimal_string k)) st1))
  = getAllFiles (run_ops xs empty_store).
Proof.
  intros A.
  destruct (addFileRecord_inv _ _ _ _ _ _ _ A) as (Hk & Hn & Hst).
  pose proof (addFileRecord_key_bound _ _ _ _ _ _ _ A) as Hb.
  pose proof (proj1 (ids_pos_reachable xs)) as Hc.
  unfold deleteFile, store_delete.
  rewrite Number_decimal_string by (unfold max_generated_key in *; lia).
  unfold getAllFiles, store_getAll. clear A.
  destruct Hst as [->|[_ ->]]; cbn [snd records].
  - apply (filter_keep_all (NInt k)). intros x Hx.
    apply (find_key_None _ _ Hn) in Hx. simpl. apply Z.eqb_neq. congruence.
  - set (rs := records (run_ops xs empty_store)) in *.
    induction rs as [|r rs IH]; simpl.
    + now rewrite Z.eqb_refl.
    + simpl in Hn. destruct (Z.eqb (id r) k) eqn:Er; [discriminate|].
      assert (Hrk : Z.eqb k (id r) = false) by (rewrite Z.eqb_sym; exact Er).
      destruct (Z.ltb k (id r)); simpl.
      * rewrite Z.eqb_refl, Hrk. simpl. f_equal.
        apply (filter_keep_all (NInt k)). intros x Hx.
        apply (find_key_None _ _ Hn) in Hx. simpl. apply Z.eqb_neq. congruence.
      * rewrite Hrk. simpl. f_equal. apply IH; auto.
Qed.

Lemma add_then_delete_restores_witness :
  getAllFiles (snd (deleteFile Completes (JStr "2")
     (snd (addFileRecord Completes sample_now untyped_file
             "data:application/octet-stream;base64,AP8=" store_with_sample))))
  = getAllFiles store_with_sample /\
  getAllFiles (snd (deleteFile Completes (JStr "2")
     (snd (addFileRecord (CommitFails UnknownError) sample_now untyped_file
             "data:application/octet-stream;base64,AP8=" store_with_sample))))
  = getAllFiles store_with_sample.
Proof.
  split.
  - apply (add_then_delete_restores [OpAdd Completes sample_now sample_file sample_url]
             Completes sample_now untyped_file "data:application/octet-stream;base64,AP8=" 2).
    reflexivity.
  - apply (add_then_delete_restores [OpAdd Completes sample_now sample_file sample_url]
             (CommitFails UnknownError) sample_now untyped_file
             "data:application/octet-stream;base64,AP8=" 2).
    reflexivity.
Defined.

(** ** The status line of an upload *)

(** [handleFiles] with an empty selection changes nothing.  Otherwise,
    when every file is stored it reports [Uploaded N file(s).], sets the
    timer that clears it and re-renders the views; when a read or an insert
    rejects, the status keeps saying [Uploading N file(s)...], the views
    are not re-rendered, and the store is the one after the files before
    the failing one, all of them stored. *)
Theorem handleFiles_status_outcome files st s0 r st' u :
  handleFiles_status files st s0 = (r, st', u) ->
  (files = [] -> r = Ok tt /\ st' = st /\ u = mkUploadStatus s0 false false) /\
  (files <> [] ->
     (r = Ok tt ->
        u = mkUploadStatus ("Uploaded " ++ decimal_string (Z.of_nat (List.length files))
                            ++ " file(s).") true true /\
        exists ids, insert_seq (batch_inserts files) st = (Ok ids, st')) /\
     (forall e, r = Err e ->
        u = mkUploadStatus ("Uploading " ++ decimal_string (Z.of_nat (List.length files))
                            ++ " file(s)...") false false /\
        exists k f env, nth_error files k = Some (f, env) /\
          (exists ids, insert_seq (batch_inserts (firstn k files)) st = (Ok ids, st')) /\
          (env_read env = ReadFails e \/
           (env_read env = ReadSucceeds /\
            addFileRecord (env_tx env) (env_now env) f (readAsDataURL f) st'
            = (Err e, st'))))).
Proof.
  unfold handleFiles_status. rewrite handleFiles_loop.
  destruct (upload_loop 0 files st) as [[r0 st0] log] eqn:L.
  destruct (upload_loop_outcome _ _ _ _ _ _ L) as [Hok Herr].
  destruct files as [|x xs].
  - intros H; injection H as <- <- <-. split; [|congruence].
    simpl in L. injection L as <- <- _. auto.
  - intros H. split; [discriminate|]. intros _.
    destruct r0 as [[]|e0]; injection H as <- <- <-; split.
    + intros _. split; [reflexivity|].
      destruct (Hok eq_refl) as (_ & ids & Hs). exists ids. exact Hs.
    + discriminate.
    + discriminate.
    + intros e He. injection He as <-. split; [reflexivity|].
      destruct (Herr e0 eq_refl) as (k & f & env & Hn & Hs & Hcase).
      exists k, f, env. split; [exact Hn|]. split; [exact Hs|].
      destruct Hcase as [(Hr & _)|(Hr & Ha & _)]; [left; exact Hr|right; auto].
Qed.

Lemma handleFiles_status_outcome_witness :
  handleFiles_status sample_batch empty_store "" =
  (Err NotReadableError,
   mkObjStore 2 [mkFileRecord 1 "a.txt" "text/plain" 3 sample_now sample_url],
   mkUploadStatus "Uploading 2 file(s)..." false false) /\
  (forall e, @Err unit NotReadableError = Err e ->
     mkUploadStatus "Uploading 2 file(s)..." false false =
     mkUploadStatus ("Uploading " ++ decimal_string (Z.of_nat (List.length sample_batch))
                     ++ " file(s)...") false false /\
     exists k f env, nth_error sample_batch k = Some (f, env) /\
       (exists ids, insert_seq (batch_inserts (firstn k sample_batch)) empty_store =
          (Ok ids, mkObjStore 2 [mkFileRecord 1 "a.txt" "text/plain" 3 sample_now sample_url])) /\
       (env_read env = ReadFails e \/
        (env_read env = ReadSucceeds /\
         addFileRecord (env_tx env) (env_now env) f (readAsDataURL f)
           (mkObjStore 2 [mkFileRecord 1 "a.txt" "text/plain" 3 sample_now sample_url])
         = (Err e,
            mkObjStore 2 [mkFileRecord 1 "a.txt" "text/plain" 3 sample_now sample_url])))).
Proof.
  split; [vm_compute; reflexivity|].
  apply (handleFiles_status_outcome sample_batch empty_store ""); [|discriminate].
  vm_compute. reflexivity.
Defined.

Example parse_iso_date_examples :
  map parse_iso_date ["1970-01-01T00:00:00.000Z"; "2026-01-01T00:00:00.000Z";
                      "2024-02-29T23:59:59.999Z"; "2023-02-29T00:00:00.000Z";
                      "2026-01-01"]%string
  = [Some 0; Some 1767225600000; Some 1709251199999; None; None].
Proof. vm_compute. reflexivity. Qed.
